(** * A limit order book with price-time priority

    Shallow embedding of [include/Order.h], [include/OrderBook.h] and
    [src/OrderBook.cpp] (namespace [orderbook]).

    Modelling conventions.
    - [std::uint64_t] members are values of [N]; the subtractions and the
      accumulation of the code have their wrap-around written out ([sub64],
      [add64]).
    - [double] prices are modelled by their exact rational value ([Qc], the
      canonical rationals, so that equal prices are equal terms). The
      comparisons of the code are then exact; the rounding of [+], [-] and
      [/ 2.0] is not modelled, and neither are NaN and the infinities.
    - [std::shared_ptr<Order>] is a location [OrderPtr] into a memory of
      [Order] objects that the caller, the index and the price levels share;
      the null pointer is [None]. A fill writes the [quantity] member of
      the one object that all of them see. The caller makes the objects
      ([std::make_shared<Order>]) and does not write to them afterwards.
    - [std::map<std::uint64_t, OrderPtr>] is a [gmap]; the ordered
      [std::map<double, std::vector<OrderPtr>>] is an association list kept
      in strictly increasing key order, so that [begin()] is its head and
      [--end()] its last element.
    - The clock is read where the caller constructs an [Order] (the
      [timestamp] member is part of the object) and in [modifyOrder], which
      takes the reading as the argument [now].
    - The trades that [executeTrade] builds are returned in the order in
      which the callback would receive them.
    - The [while] loops of [matchOrders] carry fuel, one more than the
      length of what they walk over; running out of it is the outcome
      [Diverges], an exception is the outcome [Throws]. *)

From Stdlib Require Import QArith Qcanon.
From stdpp Require Import gmap list numbers sorting.

Open Scope Qc_scope.

(** ** Order.h *)

Inductive OrderSide : Type := BUY | SELL.

Global Instance OrderSide_eq_dec : EqDecision OrderSide.
Proof. solve_decision. Defined.

Record Order : Type := mkOrder {
  orderId : N;
  side : OrderSide;
  price : Qc;
  quantity : N;
  timestamp : N
}.

(** ** OrderBook.h *)

(** The [timestamp] member of [Trade] is a reading of the wall clock taken
    in the constructor; it is left out of the model. *)
Record Trade : Type := mkTrade {
  buyOrderId : N;
  sellOrderId : N;
  trade_price : Qc;
  trade_quantity : N
}.

Definition OrderPtr : Type := positive.
Definition Memory : Type := OrderPtr → Order.
Definition PriceLevelMap : Type := list (Qc * list OrderPtr).

(** The private data of an [OrderBook] together with the [Order] objects
    its pointers refer to. *)
Record State : Type := mkState {
  mem : Memory;
  orders_ : gmap N OrderPtr;
  bids_ : PriceLevelMap;
  asks_ : PriceLevelMap
}.

Inductive outcome (A : Type) : Type :=
  | Returns (a : A)
  | Throws
  | Diverges.
Arguments Returns {A} a.
Arguments Throws {A}.
Arguments Diverges {A}.

(** ** Machine arithmetic on [std::uint64_t] *)

Definition two64 : N := (2 ^ 64)%N.

(** [a - b] on unsigned 64-bit values. *)
Definition sub64 (a b : N) : N :=
  if (b <=? a)%N then (a - b)%N else (a + two64 - b)%N.

(** [a + b] on unsigned 64-bit values. *)
Definition add64 (a b : N) : N := ((a + b) mod two64)%N.

(** ** Writes through an [OrderPtr] *)

Definition store (m : Memory) (p : OrderPtr) (o : Order) : Memory :=
  λ q, if decide (q = p) then o else m q.

Definition with_quantity (o : Order) (q : N) : Order :=
  mkOrder (orderId o) (side o) (price o) q (timestamp o).

Definition set_mem (st : State) (m : Memory) : State :=
  mkState m (orders_ st) (bids_ st) (asks_ st).

Definition set_orders (st : State) (om : gmap N OrderPtr) : State :=
  mkState (mem st) om (bids_ st) (asks_ st).

(** ** [std::map<double, std::vector<OrderPtr>>] *)

Fixpoint plm_find (k : Qc) (m : PriceLevelMap) : option (list OrderPtr) :=
  match m with
  | [] => None
  | (k', v) :: m' => if decide (k' = k) then Some v else plm_find k m'
  end.

(** Assignment through [operator[]]: the entry is overwritten where the key
    exists and inserted at its place in key order where it does not. *)
Fixpoint plm_put (k : Qc) (v : list OrderPtr) (m : PriceLevelMap) : PriceLevelMap :=
  match m with
  | [] => [(k, v)]
  | (k', v') :: m' =>
      if decide (k' = k) then (k, v) :: m'
      else if decide (k < k') then (k, v) :: (k', v') :: m'
      else (k', v') :: plm_put k v m'
  end.

Fixpoint plm_erase (k : Qc) (m : PriceLevelMap) : PriceLevelMap :=
  match m with
  | [] => []
  | (k', v) :: m' => if decide (k' = k) then m' else (k', v) :: plm_erase k m'
  end.

(** ** OrderBook.cpp: helpers *)

Definition getPriceLevelMap (sd : OrderSide) (st : State) : PriceLevelMap :=
  match sd with BUY => bids_ st | SELL => asks_ st end.

Definition set_PriceLevelMap (sd : OrderSide) (st : State) (pm : PriceLevelMap) : State :=
  match sd with
  | BUY => mkState (mem st) (orders_ st) pm (asks_ st)
  | SELL => mkState (mem st) (orders_ st) (bids_ st) pm
  end.

(** [std::find] followed by [erase]: the first occurrence is removed. *)
Fixpoint erase_first (p : OrderPtr) (l : list OrderPtr) : list OrderPtr :=
  match l with
  | [] => []
  | q :: l' => if decide (q = p) then l' else q :: erase_first p l'
  end.

Definition removeOrderFromPriceLevel (order : OrderPtr) (st : State) : State :=
  let o := mem st order in
  let priceMap := getPriceLevelMap (side o) st in
  match plm_find (price o) priceMap with
  | None => st
  | Some ordersAtPrice =>
      if decide (order ∈ ordersAtPrice) then
        match erase_first order ordersAtPrice with
        | [] => set_PriceLevelMap (side o) st (plm_erase (price o) priceMap)
        | l => set_PriceLevelMap (side o) st (plm_put (price o) l priceMap)
        end
      else st
  end.

(** [std::sort] with the comparator [a->timestamp < b->timestamp]. The
    standard leaves the relative order of equal timestamps open; the model
    is an insertion sort that keeps it. *)
Fixpoint insert_by_timestamp (m : Memory) (x : OrderPtr) (l : list OrderPtr) : list OrderPtr :=
  match l with
  | [] => [x]
  | y :: l' =>
      if (timestamp (m y) <? timestamp (m x))%N
      then y :: insert_by_timestamp m x l'
      else x :: y :: l'
  end.

Definition sort_by_timestamp (m : Memory) (l : list OrderPtr) : list OrderPtr :=
  foldr (insert_by_timestamp m) [] l.

Definition addOrderToPriceLevel (order : OrderPtr) (st : State) : State :=
  let o := mem st order in
  let priceMap := getPriceLevelMap (side o) st in
  let pushed := plm_put (price o) (default [] (plm_find (price o) priceMap) ++ [order]) priceMap in
  let ordersAtPrice := default [] (plm_find (price o) pushed) in
  set_PriceLevelMap (side o) st
    (plm_put (price o) (sort_by_timestamp (mem st) ordersAtPrice) pushed).

(** The [Trade] record is built in every case and handed to the callback
    when one is registered; the model returns it. *)
Definition executeTrade (m : Memory) (buyOrder sellOrder : OrderPtr) (qty : N) : outcome Trade :=
  if bool_decide (side (m buyOrder) ≠ BUY) || bool_decide (side (m sellOrder) ≠ SELL)
  then Throws
  else Returns (mkTrade (orderId (m buyOrder)) (orderId (m sellOrder))
                        ((price (m buyOrder) + price (m sellOrder)) / 2) qty).

(** ** OrderBook.cpp: the matching loops *)

(** One pass through the body of the inner [while] of [matchOrders]:
    [oppositeOrder] is [ordersAtPrice.front()], [rest] the vector behind it.
    The result is the state, the vector and the trade of the pass. *)
Definition matchFront (newOrder oppositeOrder : OrderPtr) (rest : list OrderPtr) (st : State)
  : outcome (State * list OrderPtr * Trade) :=
  let m := mem st in
  let tradeQuantity := N.min (quantity (m newOrder)) (quantity (m oppositeOrder)) in
  match
    match side (m newOrder) with
    | BUY => executeTrade m newOrder oppositeOrder tradeQuantity
    | SELL => executeTrade m oppositeOrder newOrder tradeQuantity
    end
  with
  | Throws => Throws
  | Diverges => Diverges
  | Returns trade =>
      let m1 := store m newOrder
                  (with_quantity (m newOrder) (sub64 (quantity (m newOrder)) tradeQuantity)) in
      let m2 := store m1 oppositeOrder
                  (with_quantity (m1 oppositeOrder) (sub64 (quantity (m1 oppositeOrder)) tradeQuantity)) in
      if decide (quantity (m2 oppositeOrder) = 0%N)
      then Returns (set_orders (set_mem st m2) (delete (orderId (m2 oppositeOrder)) (orders_ st)),
                    rest, trade)
      else Returns (set_mem st m2, oppositeOrder :: rest, trade)
  end.

(** The inner [while (!ordersAtPrice.empty() && newOrder->quantity > 0)]. *)
Fixpoint matchLevel (fuel : nat) (newOrder : OrderPtr) (st : State)
    (ordersAtPrice : list OrderPtr) (trades : list Trade)
  : outcome (State * list OrderPtr * list Trade) :=
  match fuel with
  | O => Diverges
  | S fuel' =>
      match ordersAtPrice with
      | [] => Returns (st, ordersAtPrice, trades)
      | oppositeOrder :: rest =>
          if decide (quantity (mem st newOrder) = 0%N)
          then Returns (st, ordersAtPrice, trades)
          else
            match matchFront newOrder oppositeOrder rest st with
            | Throws => Throws
            | Diverges => Diverges
            | Returns (st', ordersAtPrice', trade) =>
                matchLevel fuel' newOrder st' ordersAtPrice' (trades ++ [trade])
            end
      end
  end.

Definition opposite (sd : OrderSide) : OrderSide :=
  match sd with BUY => SELL | SELL => BUY end.

(** The outer [while (newOrder->quantity > 0 && !oppositeSide.empty())];
    [opp] names the ledger that the reference [oppositeSide] is bound to.
    An empty map has neither a head nor a last element: the case [None]
    is the loop test failing on [oppositeSide.empty()] (and the [break] on
    [priceLevelIt == oppositeSide.end()], which a non-empty map never
    takes). The vector [ordersAtPrice] is a reference into the map; the
    inner loop works on it and the result is stored under its key, or the
    key erased when the vector has become empty. *)
Fixpoint matchLoop (fuel : nat) (opp : OrderSide) (newOrder : OrderPtr)
    (st : State) (trades : list Trade) : outcome (State * list Trade) :=
  match fuel with
  | O => Diverges
  | S fuel' =>
      let oppositeSide := getPriceLevelMap opp st in
      if decide (quantity (mem st newOrder) = 0%N) then Returns (st, trades)
      else
        match
          match side (mem st newOrder) with
          | BUY => head oppositeSide
          | SELL => list.last oppositeSide
          end
        with
        | None => Returns (st, trades)
        | Some (oppositePrice, ordersAtPrice) =>
            let canMatch :=
              match side (mem st newOrder) with
              | BUY => bool_decide (oppositePrice ≤ price (mem st newOrder))
              | SELL => bool_decide (price (mem st newOrder) ≤ oppositePrice)
              end in
            if negb canMatch then Returns (st, trades)
            else
              match matchLevel (S (length ordersAtPrice)) newOrder st ordersAtPrice trades with
              | Throws => Throws
              | Diverges => Diverges
              | Returns (st', ordersAtPrice', trades') =>
                  let oppositeSide' :=
                    match ordersAtPrice' with
                    | [] => plm_erase oppositePrice (getPriceLevelMap opp st')
                    | _ => plm_put oppositePrice ordersAtPrice' (getPriceLevelMap opp st')
                    end in
                  matchLoop fuel' opp newOrder (set_PriceLevelMap opp st' oppositeSide') trades'
              end
        end
  end.

Definition matchOrders (newOrder : OrderPtr) (st : State) : outcome (State * list Trade) :=
  let opp := opposite (side (mem st newOrder)) in
  match matchLoop (S (length (getPriceLevelMap opp st))) opp newOrder st [] with
  | Throws => Throws
  | Diverges => Diverges
  | Returns (st', trades) =>
      if decide (quantity (mem st' newOrder) = 0%N)
      then Returns (removeOrderFromPriceLevel newOrder
                      (set_orders st' (delete (orderId (mem st' newOrder)) (orders_ st'))),
                    trades)
      else Returns (st', trades)
  end.

(** ** OrderBook.cpp: the public operations *)

Definition addOrder (order : option OrderPtr) (st : State) : outcome (bool * State * list Trade) :=
  match order with
  | None => Returns (false, st, [])
  | Some p =>
      if decide (quantity (mem st p) = 0%N) then Returns (false, st, [])
      else
        match orders_ st !! orderId (mem st p) with
        | Some _ => Returns (false, st, [])
        | None =>
            let st1 := set_orders st (<[orderId (mem st p) := p]> (orders_ st)) in
            let st2 := addOrderToPriceLevel p st1 in
            match matchOrders p st2 with
            | Throws => Throws
            | Diverges => Diverges
            | Returns (st3, trades) => Returns (true, st3, trades)
            end
        end
  end.

Definition cancelOrder (id : N) (st : State) : bool * State :=
  match orders_ st !! id with
  | None => (false, st)
  | Some order =>
      let st1 := removeOrderFromPriceLevel order st in
      (true, set_orders st1 (delete id (orders_ st1)))
  end.

(** [now] is the reading of the clock that becomes the new timestamp. *)
Definition modifyOrder (id : N) (newPrice : Qc) (newQuantity : N) (now : N) (st : State)
  : outcome (bool * State * list Trade) :=
  match orders_ st !! id with
  | None => Returns (false, st, [])
  | Some order =>
      let st1 := removeOrderFromPriceLevel order st in
      let o := mem st1 order in
      let st2 := set_mem st1
                   (store (mem st1) order
                      (mkOrder (orderId o) (side o) newPrice newQuantity now)) in
      let st3 := addOrderToPriceLevel order st2 in
      match matchOrders order st3 with
      | Throws => Throws
      | Diverges => Diverges
      | Returns (st4, trades) => Returns (true, st4, trades)
      end
  end.




Definition getDepthAtPrice (p : Qc) (sd : OrderSide) (st : State) : N :=
  match plm_find p (getPriceLevelMap sd st) with
  | None => 0%N
  | Some ordersAtPrice =>
      foldl (λ totalQuantity order, add64 totalQuantity (quantity (mem st order))) 0%N ordersAtPrice
  end.

Definition getOrderCount (st : State) : nat := size (orders_ st).

Definition clear (st : State) : State := mkState (mem st) ∅ [] [].

(** A default-constructed book over a memory of caller-made orders. *)
Definition empty_book (m : Memory) : State := mkState m ∅ [] [].


(** ** Vocabulary of the book invariants *)

(** The representation invariant of the ordered map: keys strictly
    increasing, hence unique. *)
Definition plm_sorted (m : PriceLevelMap) : Prop := StronglySorted Qclt (m.*1).

(** Arrival order inside a level: timestamps never decrease. *)
Definition fifo (m : Memory) (l : list OrderPtr) : Prop :=
  StronglySorted (λ a b, (timestamp (m a) ≤ timestamp (m b))%N) l.

Definition level_ok (st : State) (sd : OrderSide) (k : Qc) (l : list OrderPtr) : Prop :=
  l ≠ [] ∧ NoDup l ∧ fifo (mem st) l ∧
  ∀ p, p ∈ l →
    side (mem st p) = sd ∧ price (mem st p) = k ∧
    orders_ st !! orderId (mem st p) = Some p.

(** [p] sits in the level of its own side that is keyed by its own price. *)
Definition linked (st : State) (p : OrderPtr) : Prop :=
  ∃ l, plm_find (price (mem st p)) (getPriceLevelMap (side (mem st p)) st) = Some l ∧ p ∈ l.

(** The structure that the index and the two ledgers keep between them.
    With [free = Some x] the order [x] is in the index but (momentarily) in
    no level, as happens inside [addOrder], [cancelOrder] and
    [modifyOrder]; with [free = None] every indexed order is linked. *)
Record structured (free : option OrderPtr) (st : State) : Prop := {
  s_sorted : ∀ sd, plm_sorted (getPriceLevelMap sd st);
  s_level : ∀ sd k l,
    plm_find k (getPriceLevelMap sd st) = Some l →
    level_ok st sd k l ∧ ∀ x, free = Some x → x ∉ l;
  s_index : ∀ id p,
    orders_ st !! id = Some p → orderId (mem st p) = id ∧ (free ≠ Some p → linked st p);
  s_free : ∀ x, free = Some x → orders_ st !! orderId (mem st x) = Some x
}.

Definition quantities_positive (st : State) : Prop :=
  ∀ id p, orders_ st !! id = Some p → (0 < quantity (mem st p))%N.

(** As [quantities_positive], with the order being matched left out. *)
Definition resting_positive (x : OrderPtr) (st : State) : Prop :=
  ∀ id p, orders_ st !! id = Some p → p ≠ x → (0 < quantity (mem st p))%N.

(** The invariants of the Book: index and levels agree, no level is empty,
    levels are in arrival order, every resting quantity is positive. *)
Definition WF (st : State) : Prop := structured None st ∧ quantities_positive st.

(** Two memories that differ in the [quantity] members only. *)
Definition same_static (m m' : Memory) : Prop :=
  ∀ p, orderId (m' p) = orderId (m p) ∧ side (m' p) = side (m p) ∧
       price (m' p) = price (m p) ∧ timestamp (m' p) = timestamp (m p).

(** Price-time priority among the orders that an incoming order of side
    [sd] faces: a better price (lower for asks, higher for bids), or the
    same price and a timestamp that is not later. *)
Definition better (sd : OrderSide) (k k' : Qc) : Prop :=
  match sd with BUY => k < k' | SELL => k' < k end.



(** What a level becomes after erasures: it disappears when empty. *)
Definition surviving (l : list OrderPtr) : option (list OrderPtr) :=
  match l with [] => None | _ => Some l end.

(** The trade that one pass of the inner loop builds. *)
Definition trade_between (m : Memory) (newOrder oppositeOrder : OrderPtr) (q : N) : Trade :=
  match side (m newOrder) with
  | BUY => mkTrade (orderId (m newOrder)) (orderId (m oppositeOrder))
             ((price (m newOrder) + price (m oppositeOrder)) / 2) q
  | SELL => mkTrade (orderId (m oppositeOrder)) (orderId (m newOrder))
              ((price (m oppositeOrder) + price (m newOrder)) / 2) q
  end.

(** The two parties of a trade, seen from an incoming order of side [sd]. *)
Definition resting_id (sd : OrderSide) (t : Trade) : N :=
  match sd with BUY => sellOrderId t | SELL => buyOrderId t end.

Definition incoming_id (sd : OrderSide) (t : Trade) : N :=
  match sd with BUY => buyOrderId t | SELL => sellOrderId t end.

(** The crossing test [canMatch] of an incoming order of side [sd] and
    price [p] against a level keyed [k]. *)
Definition crosses (sd : OrderSide) (p k : Qc) : Prop :=
  match sd with BUY => k ≤ p | SELL => p ≤ k end.

Global Instance crosses_dec sd p k : Decision (crosses sd p k).
Proof. destruct sd; simpl; apply _. Defined.

(** The memory after a fill of [q] units between two distinct orders. *)
Definition filled (m : Memory) (newOrder oppositeOrder : OrderPtr) (q : N) : Memory :=
  store (store m newOrder (with_quantity (m newOrder) (quantity (m newOrder) - q)))
        oppositeOrder (with_quantity (m oppositeOrder) (quantity (m oppositeOrder) - q)).

Definition order_ids (m : Memory) (l : list OrderPtr) : list N := (λ p, orderId (m p)) <$> l.

(** What a run of the inner loop over the level [l] leaves behind: the
    orders [consumed] are filled and erased from the index, [l'] is what
    remains of the level, and at most the head of [l'] is partly filled. *)
Record level_run (newOrder : OrderPtr) (st : State) (l : list OrderPtr)
    (st' : State) (l' : list OrderPtr) (new_trades : list Trade) : Prop := {
  lr_bids : bids_ st' = bids_ st;
  lr_asks : asks_ st' = asks_ st;
  lr_static : same_static (mem st) (mem st');
  lr_split : ∃ consumed partial,
    l = consumed ++ l' ∧ partial `prefix_of` l' ∧
    resting_id (side (mem st newOrder)) <$> new_trades = order_ids (mem st) (consumed ++ partial) ∧
    ∀ id, orders_ st' !! id =
            if decide (id ∈ order_ids (mem st) consumed) then None else orders_ st !! id;
  lr_others : ∀ p, p ≠ newOrder → p ∉ l → quantity (mem st' p) = quantity (mem st p);
  lr_rest : ∀ p, p ∈ l' → (0 < quantity (mem st' p))%N;
  lr_stop : l' = [] ∨ quantity (mem st' newOrder) = 0%N;
  lr_incoming :
    Forall (λ t, incoming_id (side (mem st newOrder)) t = orderId (mem st newOrder)) new_trades
}.

(** The level that [matchOrders] takes next for an incoming order of side
    [sd]: [begin()] of the asks for a BUY, [--end()] of the bids for a SELL. *)
Definition best_level (sd : OrderSide) (m : PriceLevelMap) : option (Qc * list OrderPtr) :=
  match sd with BUY => head m | SELL => list.last m end.

(** The levels of the opposite ledger from the best price to the worst. *)
Definition by_priority (sd : OrderSide) (m : PriceLevelMap) : PriceLevelMap :=
  match sd with BUY => m | SELL => reverse m end.

(** The resting orders that an incoming order of side [sd] faces, in
    price-time priority: best level first, each level in arrival order. *)
Definition priority_queue (sd : OrderSide) (st : State) : list OrderPtr :=
  concat (snd <$> by_priority sd (getPriceLevelMap (opposite sd) st)).

(** The state to which the level [l'] is written back after the inner loop. *)
Definition write_back (opp : OrderSide) (k : Qc) (l' : list OrderPtr) (st : State) : State :=
  set_PriceLevelMap opp st
    match l' with
    | [] => plm_erase k (getPriceLevelMap opp st)
    | _ => plm_put k l' (getPriceLevelMap opp st)
    end.

(** What the outer loop of [matchOrders] leaves behind. *)
Record loop_run (newOrder : OrderPtr) (st st' : State) (new_trades : list Trade) : Prop := {
  mr_structured : structured None st';
  mr_resting : resting_positive newOrder st';
  mr_static : same_static (mem st) (mem st');
  mr_own :
    getPriceLevelMap (side (mem st newOrder)) st' = getPriceLevelMap (side (mem st newOrder)) st;
  mr_index : ∀ id p, orders_ st' !! id = Some p → orders_ st !! id = Some p;
  mr_levels : ∀ k l',
    plm_find k (getPriceLevelMap (opposite (side (mem st newOrder))) st') = Some l' →
    is_Some (plm_find k (getPriceLevelMap (opposite (side (mem st newOrder))) st));
  mr_stop :
    quantity (mem st' newOrder) = 0%N ∨
    ∀ k l, plm_find k (getPriceLevelMap (opposite (side (mem st newOrder))) st') = Some l →
           ¬ crosses (side (mem st newOrder)) (price (mem st newOrder)) k;
  mr_queue :
    resting_id (side (mem st newOrder)) <$> new_trades
      `prefix_of` order_ids (mem st) (priority_queue (side (mem st newOrder)) st);
  mr_incoming :
    Forall (λ t, incoming_id (side (mem st newOrder)) t = orderId (mem st newOrder)) new_trades
}.

(** No bid is priced at or above an ask. *)
Definition uncrossed (st : State) : Prop :=
  ∀ kb lb ka la,
    plm_find kb (bids_ st) = Some lb → plm_find ka (asks_ st) = Some la → kb < ka.

(** As [uncrossed], for the levels that hold an order other than [x]: the
    state in which [x] is inserted and not yet matched. *)
Definition uncrossed_but (x : OrderPtr) (st : State) : Prop :=
  ∀ kb lb ka la,
    plm_find kb (bids_ st) = Some lb → plm_find ka (asks_ st) = Some la →
    lb ≠ [x] → la ≠ [x] → kb < ka.

(** A price [own] of the ledger [sd] that does not reach the price [other]
    of the opposite ledger. *)
Definition apart (sd : OrderSide) (own other : Qc) : Prop :=
  match sd with BUY => own < other | SELL => other < own end.

(** What [matchOrders] leaves behind. *)
Record match_run (newOrder : OrderPtr) (st st' : State) (trades : list Trade) : Prop := {
  mo_wf : WF st';
  mo_static : same_static (mem st) (mem st');
  mo_index : ∀ id p, orders_ st' !! id = Some p → orders_ st !! id = Some p;
  mo_uncrossed : uncrossed_but newOrder st → uncrossed st';
  mo_queue :
    resting_id (side (mem st newOrder)) <$> trades
      `prefix_of` order_ids (mem st) (priority_queue (side (mem st newOrder)) st);
  mo_incoming :
    Forall (λ t, incoming_id (side (mem st newOrder)) t = orderId (mem st newOrder)) trades
}.

(** The state in which [modifyOrder] calls [matchOrders]. *)
Definition modified (p : OrderPtr) (newPrice : Qc) (newQuantity now : N) (st : State) : State :=
  let st1 := removeOrderFromPriceLevel p st in
  addOrderToPriceLevel p
    (set_mem st1 (store (mem st1) p
       (mkOrder (orderId (mem st1 p)) (side (mem st1 p)) newPrice newQuantity now))).

(** ** Sequences of calls *)

Inductive Op : Type :=
  | Add (order : option OrderPtr)
  | Cancel (id : N)
  | Modify (id : N) (newPrice : Qc) (newQuantity : N) (now : N)
  | Clear.

Definition apply_op (op : Op) (st : State) : outcome (State * list Trade) :=
  match op with
  | Add order =>
      match addOrder order st with
      | Returns (_, st', trades) => Returns (st', trades)
      | Throws => Throws
      | Diverges => Diverges
      end
  | Cancel id => Returns ((cancelOrder id st).2, [])
  | Modify id newPrice newQuantity now =>
      match modifyOrder id newPrice newQuantity now st with
      | Returns (_, st', trades) => Returns (st', trades)
      | Throws => Throws
      | Diverges => Diverges
      end
  | Clear => Returns (clear st, [])
  end.

Fixpoint run (ops : list Op) (st : State) : outcome State :=
  match ops with
  | [] => Returns st
  | op :: ops' =>
      match apply_op op st with
      | Returns (st', _) => run ops' st'
      | Throws => Throws
      | Diverges => Diverges
      end
  end.

Definition state_after (ops : list Op) (m : Memory) : State :=
  match run ops (empty_book m) with
  | Returns st => st
  | _ => empty_book m
  end.

(** ** The properties of a well-formed book, one by one *)




(** ** Orders of the test scenarios *)

(** A price given in hundredths. *)
Definition px (n : Z) : Qc := Q2Qc (n # 100).

Definition no_order : Order := mkOrder 0 BUY 0 0 0.

(** SELL 1 @ 100.50 x 100, BUY 2 @ 100.50 x 150. *)
Definition partial_fill_orders : Memory := λ p,
  match p with
  | 1%positive => mkOrder 1 SELL (px 10050) 100 1
  | 2%positive => mkOrder 2 BUY (px 10050) 150 2
  | _ => no_order
  end.

(** BUY 1 @ 100.50 x 100, BUY 2 @ 100.25 x 200, SELL 3 @ 101.00 x 150,
    SELL 4 @ 101.25 x 100, and the aggressive SELL 5 @ 100.30 x 75. *)
Definition crossing_orders : Memory := λ p,
  match p with
  | 1%positive => mkOrder 1 BUY (px 10050) 100 1
  | 2%positive => mkOrder 2 BUY (px 10025) 200 2
  | 3%positive => mkOrder 3 SELL (px 10100) 150 3
  | 4%positive => mkOrder 4 SELL (px 10125) 100 4
  | 5%positive => mkOrder 5 SELL (px 10030) 75 5
  | _ => no_order
  end.



(** A BUY at the price -1.50. *)
Definition nonpositive_orders : Memory := λ p,
  match p with
  | 1%positive => mkOrder 1 BUY (px (-150)) 10 1
  | _ => no_order
  end.

(** Orders that all carry a positive price: the one at [p] has identifier
    [p]; odd ones buy at 100.00, even ones sell at 100.00. *)
Definition positive_orders : Memory := λ p,
  match p with
  | xO _ => mkOrder (Npos p) SELL (px 10000) 10 (Npos p)
  | _ => mkOrder (Npos p) BUY (px 10000) 10 (Npos p)
  end.

(** The prices that a sequence of calls hands to [modifyOrder]. *)
Definition modifies_to_positive (op : Op) : Prop :=
  match op with
  | Modify _ newPrice _ _ => 0 < newPrice
  | _ => True
  end.


(** The inputs that [addOrder] turns down. *)
Definition rejected (order : option OrderPtr) (st : State) : Prop :=
  order = None ∨
  ∃ p, order = Some p ∧
       (quantity (mem st p) = 0%N ∨ is_Some (orders_ st !! orderId (mem st p))).


(** ** Order.h: the comparison operators *)

(** [operator<]: the branch is chosen by the side of [*this] alone. *)
Definition operator_lt (this other : Order) : bool :=
  match side this with
  | BUY =>
      if bool_decide (price this ≠ price other)
      then bool_decide (price other < price this)
      else (timestamp this <? timestamp other)%N
  | SELL =>
      if bool_decide (price this ≠ price other)
      then bool_decide (price this < price other)
      else (timestamp this <? timestamp other)%N
  end.

Definition operator_gt (this other : Order) : bool := operator_lt other this.

Definition operator_eq (this other : Order) : bool := (orderId this =? orderId other)%N.

Definition operator_ne (this other : Order) : bool := negb (operator_eq this other).

(** ** Vocabulary of the queries and of the trades *)

(** The orders of all levels, bids first, each ledger in key order. *)
Definition resting_orders (st : State) : list OrderPtr :=
  concat (bids_ st).*2 ++ concat (asks_ st).*2.

(** The vector stored under a price, empty where the price has no level. *)
Definition level_at (k : Qc) (sd : OrderSide) (st : State) : list OrderPtr :=
  default [] (plm_find k (getPriceLevelMap sd st)).

(** The quantities of a vector of orders, added up without a bound. *)
Definition total_quantity (m : Memory) (l : list OrderPtr) : N :=
  foldr (λ p s, (quantity (m p) + s)%N) 0%N l.

(** The quantities of a list of trades, added up. *)
Definition traded (trades : list Trade) : N :=
  foldr (λ t s, (trade_quantity t + s)%N) 0%N trades.

(** The incoming order [p] reaches no price of the opposite ledger. *)
Definition passive (p : OrderPtr) (st : State) : Prop :=
  ∀ k l, plm_find k (getPriceLevelMap (opposite (side (mem st p))) st) = Some l →
         ¬ crosses (side (mem st p)) (price (mem st p)) k.

(** The state in which [addOrder] calls [matchOrders]. *)
Definition submitted (p : OrderPtr) (st : State) : State :=
  addOrderToPriceLevel p (set_orders st (<[orderId (mem st p) := p]> (orders_ st))).

(** * Properties *)

(** ** The ordered map *)

Section plm.
Implicit Types (k : Qc) (v : list OrderPtr) (m : PriceLevelMap).

Lemma plm_find_is_Some k m : is_Some (plm_find k m) ↔ k ∈ m.*1.
Proof.
  induction m as [|[k' v'] m IH]; simpl.
  - split; [by intros [? ?] | by intros ?%elem_of_nil].
  - case_decide; subst.
    + split; [intros _; left | eauto].
    + rewrite IH, elem_of_cons. split; [by right | by intros [?|?]].
Qed.

Lemma plm_find_None k m : plm_find k m = None ↔ k ∉ m.*1.
Proof. rewrite <-plm_find_is_Some, eq_None_not_Some. done. Qed.

Lemma plm_sorted_cons k v m :
  plm_sorted ((k, v) :: m) ↔ plm_sorted m ∧ ∀ k', k' ∈ m.*1 → k < k'.
Proof.
  unfold plm_sorted. simpl. split.
  - intros [Hs Hall]%StronglySorted_inv.
    split; [done|]. by apply Forall_forall.
  - intros [Hs Hall]. constructor; [done|]. by apply Forall_forall.
Qed.

Lemma plm_sorted_nil : plm_sorted [].
Proof. constructor. Qed.

Lemma plm_elem_find k v m : plm_sorted m → (k, v) ∈ m → plm_find k m = Some v.
Proof.
  induction m as [|[k' v'] m IH]; simpl; intros Hs Hin.
  - by apply elem_of_nil in Hin.
  - apply plm_sorted_cons in Hs as [Hs Hlt].
    apply elem_of_cons in Hin as [Heq|Hin].
    + simplify_eq. by rewrite decide_True.
    + rewrite decide_False; [auto|].
      intros ->. apply (Qclt_not_eq k k); [|done].
      apply Hlt, list_elem_of_fmap. by exists (k, v).
  Qed.

Lemma plm_find_put k v m k' :
  plm_find k' (plm_put k v m) = if decide (k = k') then Some v else plm_find k' m.
Proof.
  induction m as [|[k1 v1] m IH]; simpl.
  - done.
  - destruct (decide (k1 = k)) as [->|Hne]; simpl.
    + by destruct (decide (k = k')).
    + destruct (decide (k < k1)); simpl.
      * by destruct (decide (k = k')).
      * rewrite IH. destruct (decide (k1 = k')), (decide (k = k')); congruence.
Qed.

Lemma plm_find_erase_ne k m k' : k ≠ k' → plm_find k' (plm_erase k m) = plm_find k' m.
Proof.
  intros Hne. induction m as [|[k1 v1] m IH]; simpl; [done|].
  destruct (decide (k1 = k)) as [->|?]; simpl.
  - by rewrite decide_False.
  - by rewrite IH.
Qed.

Lemma plm_find_erase_eq k m : plm_sorted m → plm_find k (plm_erase k m) = None.
Proof.
  induction m as [|[k1 v1] m IH]; simpl; [done|].
  intros [Hs Hlt]%plm_sorted_cons.
  destruct (decide (k1 = k)) as [->|?]; simpl.
  - apply plm_find_None. intros Hin. by apply (Qclt_not_eq k k); [apply Hlt|].
  - rewrite decide_False by done. auto.
Qed.

Lemma plm_find_erase k m k' :
  plm_sorted m →
  plm_find k' (plm_erase k m) = if decide (k = k') then None else plm_find k' m.
Proof.
  intros Hs. case_decide; subst; [by apply plm_find_erase_eq | by apply plm_find_erase_ne].
Qed.

Lemma plm_put_sorted k v m : plm_sorted m → plm_sorted (plm_put k v m).
Proof.
  induction m as [|[k1 v1] m IH]; simpl; intros Hs.
  - apply plm_sorted_cons. split; [constructor | by intros ? ?%elem_of_nil].
  - apply plm_sorted_cons in Hs as Hs'. destruct Hs' as [Hs' Hlt].
    destruct (decide (k1 = k)) as [->|Hne]; [by apply plm_sorted_cons|].
    destruct (decide (k < k1)) as [Hk|Hk].
    + apply plm_sorted_cons. split; [done|].
      intros k' [->|Hin]%elem_of_cons; [done|].
      etrans; [exact Hk | by apply Hlt].
    + apply plm_sorted_cons. split; [by apply IH|].
      intros k' Hin%plm_find_is_Some. rewrite plm_find_put in Hin.
      case_decide; subst.
      * apply Qcnot_le_lt. intros Hle. apply Qcle_lt_or_eq in Hle as [?|?]; done.
      * by apply Hlt, plm_find_is_Some.
Qed.

Lemma plm_erase_sorted k m : plm_sorted m → plm_sorted (plm_erase k m).
Proof.
  induction m as [|[k1 v1] m IH]; simpl; [done|].
  intros [Hs Hlt]%plm_sorted_cons.
  destruct (decide (k1 = k)); [done|].
  apply plm_sorted_cons. split; [auto|].
  intros k' Hin%plm_find_is_Some.
  destruct (decide (k = k')) as [->|?].
  - rewrite plm_find_erase_eq in Hin by done. by destruct Hin.
  - rewrite plm_find_erase_ne in Hin by done. by apply Hlt, plm_find_is_Some.
Qed.


Lemma plm_head_min k v m :
  plm_sorted m → head m = Some (k, v) →
  plm_find k m = Some v ∧ ∀ k' v', plm_find k' m = Some v' → k ≤ k'.
Proof.
  destruct m as [|[k1 v1] m]; simpl; [done|].
  intros [Hs Hlt]%plm_sorted_cons [= -> ->]. rewrite decide_True by done.
  split; [done|]. intros k' v'. case_decide; subst; intros Hf.
  - apply Qcle_refl.
  - apply Qclt_le_weak, Hlt, plm_find_is_Some. eauto.
Qed.

Lemma plm_last_max k v m :
  plm_sorted m → list.last m = Some (k, v) →
  plm_find k m = Some v ∧ ∀ k' v', plm_find k' m = Some v' → k' ≤ k.
Proof.
  intros Hs Hl. split.
  - apply plm_elem_find; [done|]. apply last_Some_elem_of. done.
  - induction m as [|[k1 v1] m IH]; [done|].
    apply plm_sorted_cons in Hs as [Hs Hlt].
    intros k' v'. simpl. destruct m as [|[k2 v2] m].
    + simpl in *. simplify_eq. case_decide; [subst; intros; apply Qcle_refl | done].
    + case_decide; subst.
      * intros _. apply Qclt_le_weak, Hlt.
        apply list_elem_of_fmap. exists (k, v). split; [done|].
        apply last_Some_elem_of. by rewrite last_cons_cons in Hl.
      * apply IH; [done|]. by rewrite last_cons_cons in Hl.
Qed.
End plm.

(** ** Vectors of order pointers *)

Lemma erase_first_sublist p l : erase_first p l `sublist_of` l.
Proof.
  induction l as [|q l IH]; simpl; [done|].
  case_decide; [by apply sublist_cons | by apply sublist_skip].
Qed.

Lemma erase_first_elem_of p q l : q ∈ erase_first p l → q ∈ l.
Proof. intros H. eapply elem_of_sublist; [done | apply erase_first_sublist]. Qed.

Lemma erase_first_other p q l : q ≠ p → q ∈ l → q ∈ erase_first p l.
Proof.
  intros Hne. induction l as [|r l IH]; simpl; [done|].
  intros [->|Hin]%elem_of_cons.
  - rewrite decide_False by done. left.
  - case_decide; [done|]. right. auto.
Qed.

Lemma erase_first_gone p l : NoDup l → p ∉ erase_first p l.
Proof.
  induction l as [|r l IH]; simpl; [intros _ ?%elem_of_nil; done|].
  intros [Hr Hnd]%NoDup_cons. case_decide; subst; [done|].
  intros [?|?]%elem_of_cons; [done|]. by apply IH.
Qed.

Lemma erase_first_NoDup p l : NoDup l → NoDup (erase_first p l).
Proof. intros. eapply sublist_NoDup; [done | apply erase_first_sublist]. Qed.

Lemma fifo_erase_first m p l : fifo m l → fifo m (erase_first p l).
Proof.
  unfold fifo. induction l as [|r l IH]; simpl; [done|].
  intros [Hs Hall]%StronglySorted_inv. case_decide; [done|].
  constructor; [auto|]. apply Forall_forall. intros x Hx%erase_first_elem_of.
  by eapply Forall_forall in Hall.
Qed.

Lemma fifo_suffix m l1 l2 : fifo m (l1 ++ l2) → fifo m l2.
Proof. unfold fifo. apply StronglySorted_app_1_r. Qed.

Lemma fifo_same_static m m' l : same_static m m' → fifo m l → fifo m' l.
Proof.
  intros Hss. unfold fifo. induction 1 as [|x l Hs IH Hall]; constructor; [done|].
  eapply Forall_impl; [done|]. intros y Hy. simpl in *.
  destruct (Hss x) as (_ & _ & _ & ->), (Hss y) as (_ & _ & _ & ->). done.
Qed.

Lemma insert_by_timestamp_perm m x l : insert_by_timestamp m x l ≡ₚ x :: l.
Proof.
  induction l as [|y l IH]; simpl; [done|].
  case_match; [|done]. rewrite IH. apply Permutation_swap.
Qed.

Lemma sort_by_timestamp_perm m l : sort_by_timestamp m l ≡ₚ l.
Proof.
  induction l as [|x l IH]; simpl; [done|].
  rewrite insert_by_timestamp_perm. by f_equiv.
Qed.

Lemma insert_by_timestamp_fifo m x l : fifo m l → fifo m (insert_by_timestamp m x l).
Proof.
  unfold fifo. induction l as [|y l IH]; simpl; intros Hs.
  - repeat constructor.
  - apply StronglySorted_inv in Hs as [Hs Hall].
    destruct (N.ltb_spec (timestamp (m y)) (timestamp (m x))) as [Hlt|Hle].
    + constructor; [auto|]. apply Forall_forall. intros z Hz.
      rewrite insert_by_timestamp_perm in Hz. apply elem_of_cons in Hz as [->|Hz].
      * lia.
      * by eapply Forall_forall in Hall.
    + constructor; [by constructor|]. constructor; [done|].
      eapply Forall_impl; [done|]. simpl. intros; lia.
Qed.

Lemma sort_by_timestamp_fifo m l : fifo m (sort_by_timestamp m l).
Proof.
  induction l as [|x l IH]; simpl; [constructor|]. by apply insert_by_timestamp_fifo.
Qed.



(** ** Memory *)

Lemma store_eq m p o : store m p o p = o.
Proof. unfold store. by rewrite decide_True. Qed.

Lemma store_ne m p o q : q ≠ p → store m p o q = m q.
Proof. intros. unfold store. by rewrite decide_False. Qed.

Lemma same_static_refl m : same_static m m.
Proof. done. Qed.

Lemma same_static_trans m1 m2 m3 :
  same_static m1 m2 → same_static m2 m3 → same_static m1 m3.
Proof.
  intros H12 H23 p. destruct (H12 p) as (?&?&?&?), (H23 p) as (?&?&?&?).
  repeat split; congruence.
Qed.


(** ** Field accesses *)

Lemma get_set_PriceLevelMap sd sd' st pm :
  getPriceLevelMap sd' (set_PriceLevelMap sd st pm) =
    if decide (sd' = sd) then pm else getPriceLevelMap sd' st.
Proof. by destruct sd, sd'. Qed.

Lemma mem_set_PriceLevelMap sd st pm : mem (set_PriceLevelMap sd st pm) = mem st.
Proof. by destruct sd. Qed.

Lemma orders_set_PriceLevelMap sd st pm : orders_ (set_PriceLevelMap sd st pm) = orders_ st.
Proof. by destruct sd. Qed.

Lemma getPriceLevelMap_set_mem sd st m : getPriceLevelMap sd (set_mem st m) = getPriceLevelMap sd st.
Proof. by destruct sd. Qed.

Lemma getPriceLevelMap_set_orders sd st om :
  getPriceLevelMap sd (set_orders st om) = getPriceLevelMap sd st.
Proof. by destruct sd. Qed.

Lemma opposite_ne sd : opposite sd ≠ sd.
Proof. by destruct sd. Qed.

Lemma surviving_Some l l' : surviving l = Some l' → l' = l ∧ l ≠ [].
Proof. destruct l; simpl; [done|]. by intros [= <-]. Qed.

(** ** Price-level maintenance *)

Lemma removeOrderFromPriceLevel_mem p st : mem (removeOrderFromPriceLevel p st) = mem st.
Proof.
  unfold removeOrderFromPriceLevel. repeat case_match; by rewrite ?mem_set_PriceLevelMap.
Qed.

Lemma removeOrderFromPriceLevel_orders p st :
  orders_ (removeOrderFromPriceLevel p st) = orders_ st.
Proof.
  unfold removeOrderFromPriceLevel. repeat case_match; by rewrite ?orders_set_PriceLevelMap.
Qed.

Lemma removeOrderFromPriceLevel_set_orders p st om :
  removeOrderFromPriceLevel p (set_orders st om) =
    set_orders (removeOrderFromPriceLevel p st) om.
Proof.
  unfold removeOrderFromPriceLevel. simpl.
  rewrite !getPriceLevelMap_set_orders.
  repeat case_match; try done; by destruct (side (mem st p)).
Qed.

(** The level that held [p] loses it, and disappears when [p] was alone. *)
Lemma removeOrderFromPriceLevel_find p st l sd k :
  plm_sorted (getPriceLevelMap (side (mem st p)) st) →
  plm_find (price (mem st p)) (getPriceLevelMap (side (mem st p)) st) = Some l →
  p ∈ l →
  plm_find k (getPriceLevelMap sd (removeOrderFromPriceLevel p st)) =
    if decide (sd = side (mem st p) ∧ k = price (mem st p))
    then surviving (erase_first p l)
    else plm_find k (getPriceLevelMap sd st).
Proof.
  intros Hs Hf Hin. unfold removeOrderFromPriceLevel. rewrite Hf.
  rewrite decide_True by done.
  destruct (erase_first p l) as [|q l'] eqn:He;
    rewrite get_set_PriceLevelMap;
    destruct (decide (sd = side (mem st p))) as [->|Hsd].
  - rewrite plm_find_erase by done.
    destruct (decide (price (mem st p) = k)) as [<-|?].
    + by rewrite decide_True.
    + rewrite decide_False; [done | intros [? ?]; congruence].
  - rewrite decide_False; [done | intros [? ?]; congruence].
  - rewrite plm_find_put.
    destruct (decide (price (mem st p) = k)) as [<-|?].
    + by rewrite decide_True.
    + rewrite decide_False; [done | intros [? ?]; congruence].
  - rewrite decide_False; [done | intros [? ?]; congruence].
Qed.

Lemma removeOrderFromPriceLevel_sorted p st sd :
  plm_sorted (getPriceLevelMap sd st) →
  plm_sorted (getPriceLevelMap sd (removeOrderFromPriceLevel p st)).
Proof.
  intros Hs. unfold removeOrderFromPriceLevel.
  destruct (plm_find _ _) as [l|]; [|done].
  case_decide; [|done].
  destruct (erase_first p l); rewrite get_set_PriceLevelMap; case_decide; subst;
    auto using plm_erase_sorted, plm_put_sorted.
Qed.

Lemma addOrderToPriceLevel_mem p st : mem (addOrderToPriceLevel p st) = mem st.
Proof. unfold addOrderToPriceLevel. by rewrite mem_set_PriceLevelMap. Qed.

Lemma addOrderToPriceLevel_orders p st : orders_ (addOrderToPriceLevel p st) = orders_ st.
Proof. unfold addOrderToPriceLevel. by rewrite orders_set_PriceLevelMap. Qed.

(** The level of [p] is the old level with [p] pushed and the whole sorted. *)
Lemma addOrderToPriceLevel_find p st sd k :
  plm_find k (getPriceLevelMap sd (addOrderToPriceLevel p st)) =
    if decide (sd = side (mem st p) ∧ k = price (mem st p))
    then Some (sort_by_timestamp (mem st)
                 (default [] (plm_find (price (mem st p))
                                (getPriceLevelMap (side (mem st p)) st)) ++ [p]))
    else plm_find k (getPriceLevelMap sd st).
Proof.
  unfold addOrderToPriceLevel. rewrite get_set_PriceLevelMap.
  destruct (decide (sd = side (mem st p))) as [->|Hsd].
  - rewrite !plm_find_put. rewrite (decide_True (P := price _ = price _)) by done. simpl.
    destruct (decide (price (mem st p) = k)) as [<-|?].
    + by rewrite decide_True.
    + rewrite decide_False; [done | intros [? ?]; congruence].
  - rewrite decide_False; [done | intros [? ?]; congruence].
Qed.

Lemma addOrderToPriceLevel_sorted p st sd :
  plm_sorted (getPriceLevelMap sd st) →
  plm_sorted (getPriceLevelMap sd (addOrderToPriceLevel p st)).
Proof.
  intros Hs. unfold addOrderToPriceLevel. rewrite get_set_PriceLevelMap.
  case_decide; subst; auto using plm_put_sorted.
Qed.

(** ** How the operations move the structure *)

Lemma fifo_agree m m' l :
  (∀ q, q ∈ l → timestamp (m' q) = timestamp (m q)) → fifo m l → fifo m' l.
Proof.
  unfold fifo. intros Hag Hs. induction Hs as [|x l Hs IH Hall]; constructor.
  - apply IH. intros q Hq. apply Hag. by right.
  - apply Forall_forall. intros y Hy. eapply Forall_forall in Hall; [|done].
    simpl in *. rewrite !Hag; [done | by right | left].
Qed.

Lemma level_ok_ext st st' sd k l :
  mem st' = mem st → orders_ st' = orders_ st → level_ok st sd k l → level_ok st' sd k l.
Proof. unfold level_ok. by intros -> ->. Qed.

(** Orders of one level share side and price, so two levels never share
    an order. *)
Lemma level_ok_place st sd k l p :
  level_ok st sd k l → p ∈ l → sd = side (mem st p) ∧ k = price (mem st p).
Proof. intros (_ & _ & _ & Hm) Hin. destruct (Hm _ Hin) as (? & ? & _). done. Qed.

Lemma structured_remove st id p :
  structured None st → orders_ st !! id = Some p →
  structured (Some p) (removeOrderFromPriceLevel p st).
Proof.
  intros [Hs Hl Hi _] Hid.
  destruct (Hi _ _ Hid) as [Hpid Hlk]. destruct Hlk as (l & Hf & Hin); [done|].
  pose proof (removeOrderFromPriceLevel_find p st l) as Hfind.
  pose proof (removeOrderFromPriceLevel_mem p st) as Hmem.
  pose proof (removeOrderFromPriceLevel_orders p st) as Hord.
  destruct (Hl _ _ _ Hf) as [(Hne0 & Hnd & Hfifo & Hmemb) _].
  split.
  - intros sd. apply removeOrderFromPriceLevel_sorted, Hs.
  - intros sd k l'. rewrite Hfind by done. case_decide as Hc.
    + destruct Hc as [-> ->]. intros [-> Hne]%surviving_Some. split.
      * split; [done|]. split; [by apply erase_first_NoDup|].
        split; [rewrite Hmem; by apply fifo_erase_first|].
        intros q Hq%erase_first_elem_of. rewrite Hmem, Hord. by apply Hmemb.
      * intros x [= <-]. by apply erase_first_gone.
    + intros Hf'. destruct (Hl _ _ _ Hf') as [Hlv _]. split.
      * by eapply level_ok_ext.
      * intros x [= <-] Hin'. apply Hc. by eapply level_ok_place.
  - intros id' q Hq. rewrite Hord in Hq. destruct (Hi _ _ Hq) as [Hqid Hqlk].
    rewrite Hmem. split; [done|]. intros Hne.
    destruct Hqlk as (lq & Hfq & Hinq); [done|].
    unfold linked. rewrite Hmem, Hfind by done. case_decide as Hc.
    + destruct Hc as [Hsd Hk]. rewrite Hsd, Hk in Hfq. simplify_eq.
      assert (q ∈ erase_first p l) as Hq' by (apply erase_first_other; [congruence|done]).
      exists (erase_first p l). split; [|done].
      destruct (erase_first p l); [by apply elem_of_nil in Hq' | done].
    + eauto.
  - intros x [= <-]. by rewrite Hord, Hmem, Hpid.
Qed.

Lemma structured_erase st p :
  structured (Some p) st →
  structured None (set_orders st (delete (orderId (mem st p)) (orders_ st))).
Proof.
  intros [Hs Hl Hi Hfr]. specialize (Hfr p eq_refl).
  split; simpl.
  - intros sd. rewrite getPriceLevelMap_set_orders. apply Hs.
  - intros sd k l. rewrite getPriceLevelMap_set_orders. intros Hf.
    destruct (Hl _ _ _ Hf) as [(Hne & Hnd & Hfifo & Hmemb) Hfree].
    split; [|done]. split; [done|]. split; [done|]. split; [done|]. simpl.
    intros q Hq. destruct (Hmemb _ Hq) as (? & ? & Hqi). split; [done|]. split; [done|].
    rewrite lookup_delete_ne; [done|]. intros Heq. rewrite <-Heq in Hqi.
    assert (q = p) as -> by congruence. by eapply Hfree.
  - intros id q. rewrite lookup_delete_Some. intros [Hne Hq].
    destruct (Hi _ _ Hq) as [Hqid Hqlk]. split; [done|]. intros _.
    destruct Hqlk as (l & Hf & Hin); [congruence|].
    exists l. by rewrite getPriceLevelMap_set_orders.
  - done.
Qed.

Lemma structured_register st p :
  structured None st → orders_ st !! orderId (mem st p) = None →
  structured (Some p) (set_orders st (<[orderId (mem st p) := p]> (orders_ st))).
Proof.
  intros [Hs Hl Hi _] Hfresh. split; simpl.
  - intros sd. rewrite getPriceLevelMap_set_orders. apply Hs.
  - intros sd k l. rewrite getPriceLevelMap_set_orders. intros Hf.
    destruct (Hl _ _ _ Hf) as [(Hne & Hnd & Hfifo & Hmemb) _].
    split.
    + split; [done|]. split; [done|]. split; [done|]. simpl.
      intros q Hq. destruct (Hmemb _ Hq) as (? & ? & Hqi). split; [done|]. split; [done|].
      rewrite lookup_insert_ne; [done | congruence].
    + intros x [= <-] Hin. destruct (Hmemb _ Hin) as (_ & _ & Hpi). congruence.
  - intros id q. rewrite lookup_insert_Some. intros [[<- <-]|[Hne Hq]].
    + split; [done|]. by intros [].
    + destruct (Hi _ _ Hq) as [Hqid Hqlk]. split; [done|]. intros _.
      destruct Hqlk as (l & Hf & Hin); [done|].
      exists l. by rewrite getPriceLevelMap_set_orders.
  - intros x [= <-]. by rewrite lookup_insert_eq.
Qed.

(** Rewriting the free order leaves the structure alone as long as its
    identifier stays. *)
Lemma structured_overwrite st p o :
  structured (Some p) st → orderId o = orderId (mem st p) →
  structured (Some p) (set_mem st (store (mem st) p o)).
Proof.
  intros [Hs Hl Hi Hfr] Hid. specialize (Hfr p eq_refl).
  assert (∀ q, orderId (store (mem st) p o q) = orderId (mem st q)) as Hids.
  { intros q. unfold store. case_decide; subst; done. }
  split; simpl.
  - intros sd. rewrite getPriceLevelMap_set_mem. apply Hs.
  - intros sd k l. rewrite getPriceLevelMap_set_mem. intros Hf.
    destruct (Hl _ _ _ Hf) as [(Hne & Hnd & Hfifo & Hmemb) Hfree].
    specialize (Hfree p eq_refl).
    split; [|by intros x [= <-]]. split; [done|]. split; [done|]. simpl. split.
    + eapply fifo_agree; [|done]. intros q Hq. rewrite store_ne; [done | congruence].
    + intros q Hq. rewrite Hids. rewrite store_ne by congruence. by apply Hmemb.
  - intros id q Hq. rewrite Hids. destruct (Hi _ _ Hq) as [Hqid Hqlk]. split; [done|].
    intros Hne. destruct Hqlk as (l & Hf & Hin); [done|].
    exists l. simpl. rewrite getPriceLevelMap_set_mem.
    rewrite store_ne by congruence. done.
  - intros x [= <-]. by rewrite Hids.
Qed.

Lemma structured_link st p :
  structured (Some p) st → structured None (addOrderToPriceLevel p st).
Proof.
  intros [Hs Hl Hi Hfr]. specialize (Hfr p eq_refl).
  pose proof (addOrderToPriceLevel_find p st) as Hfind.
  pose proof (addOrderToPriceLevel_mem p st) as Hmem.
  pose proof (addOrderToPriceLevel_orders p st) as Hord.
  set (old := default [] (plm_find (price (mem st p))
                            (getPriceLevelMap (side (mem st p)) st))) in *.
  assert (∀ q, q ∈ old →
            side (mem st q) = side (mem st p) ∧ price (mem st q) = price (mem st p) ∧
            orders_ st !! orderId (mem st q) = Some q) as Hold.
  { intros q. unfold old. destruct (plm_find _ _) as [l|] eqn:Hf; simpl.
    - destruct (Hl _ _ _ Hf) as [(_ & _ & _ & Hmemb) _]. apply Hmemb.
    - by intros ?%elem_of_nil. }
  assert (NoDup (old ++ [p])) as Hnd.
  { unfold old. destruct (plm_find _ _) as [l|] eqn:Hf; simpl.
    - destruct (Hl _ _ _ Hf) as [(_ & Hnd & _) Hfree].
      apply NoDup_app. split; [done|]. split; [|apply NoDup_singleton].
      intros q Hq ->%list_elem_of_singleton. by eapply Hfree.
    - apply NoDup_singleton. }
  split.
  - intros sd. apply addOrderToPriceLevel_sorted, Hs.
  - intros sd k l. rewrite Hfind. case_decide as Hc.
    + destruct Hc as [-> ->]. intros [= <-]. split; [|done].
      split. { intros Hnil. apply (f_equal length) in Hnil.
               rewrite sort_by_timestamp_perm, length_app in Hnil. simpl in Hnil. lia. }
      split. { by rewrite sort_by_timestamp_perm. }
      split. { rewrite Hmem. apply sort_by_timestamp_fifo. }
      intros q. rewrite sort_by_timestamp_perm, Hmem, Hord.
      intros [Hq| ->%list_elem_of_singleton]%elem_of_app; [by apply Hold | done].
    + intros Hf. destruct (Hl _ _ _ Hf) as [Hlv _]. split; [|done].
      by eapply level_ok_ext.
  - intros id q Hq. rewrite Hord in Hq. rewrite Hmem.
    destruct (Hi _ _ Hq) as [Hqid Hqlk]. split; [done|]. intros _.
    unfold linked. rewrite Hmem, Hfind.
    destruct (decide (q = p)) as [->|Hne].
    + rewrite decide_True by done. eexists. split; [done|].
      rewrite sort_by_timestamp_perm. apply elem_of_app. right. left.
    + destruct Hqlk as (l & Hf & Hin); [congruence|]. case_decide as Hc.
      * destruct Hc as [Hsd Hk]. eexists. split; [done|].
        rewrite sort_by_timestamp_perm. apply elem_of_app. left.
        unfold old. rewrite <-Hsd, <-Hk, Hf. done.
      * eauto.
  - done.
Qed.


(** ** One pass of the inner loop *)

Lemma sub64_le a b : (b ≤ a)%N → sub64 a b = (a - b)%N.
Proof. intros. unfold sub64. destruct (N.leb_spec b a); [done | lia]. Qed.

Lemma executeTrade_Returns m b s q :
  side (m b) = BUY → side (m s) = SELL →
  executeTrade m b s q =
    Returns (mkTrade (orderId (m b)) (orderId (m s)) ((price (m b) + price (m s)) / 2) q).
Proof.
  intros Hb Hs. unfold executeTrade. rewrite Hb, Hs.
  rewrite !bool_decide_eq_false_2 by (intros H; by apply H). done.
Qed.

Lemma matchFront_Returns newOrder oppositeOrder rest st :
  newOrder ≠ oppositeOrder →
  side (mem st oppositeOrder) = opposite (side (mem st newOrder)) →
  let q := N.min (quantity (mem st newOrder)) (quantity (mem st oppositeOrder)) in
  let m' := filled (mem st) newOrder oppositeOrder q in
  matchFront newOrder oppositeOrder rest st =
    if decide (quantity (mem st oppositeOrder) ≤ quantity (mem st newOrder))%N
    then Returns (set_orders (set_mem st m') (delete (orderId (mem st oppositeOrder)) (orders_ st)),
                  rest, trade_between (mem st) newOrder oppositeOrder q)
    else Returns (set_mem st m', oppositeOrder :: rest,
                  trade_between (mem st) newOrder oppositeOrder q).
Proof.
  intros Hne Hside q m'. unfold matchFront.
  assert (match side (mem st newOrder) with
          | BUY => executeTrade (mem st) newOrder oppositeOrder q
          | SELL => executeTrade (mem st) oppositeOrder newOrder q
          end = Returns (trade_between (mem st) newOrder oppositeOrder q)) as Hex.
  { unfold trade_between. destruct (side (mem st newOrder)) eqn:Hs.
    - by apply executeTrade_Returns.
    - by apply executeTrade_Returns. }
  fold q. rewrite Hex. clear Hex.
  rewrite (store_ne _ newOrder _ oppositeOrder) by done.
  rewrite sub64_le by (unfold q; lia). rewrite sub64_le by (unfold q; lia).
  fold (filled (mem st) newOrder oppositeOrder q). fold m'.
  assert (m' oppositeOrder =
            with_quantity (mem st oppositeOrder) (quantity (mem st oppositeOrder) - q)) as Hopp.
  { unfold m', filled. by rewrite store_eq. }
  rewrite Hopp. simpl.
  destruct (decide (quantity (mem st oppositeOrder) ≤ quantity (mem st newOrder))%N).
  - rewrite decide_True by (unfold q; lia). done.
  - rewrite decide_False by (unfold q; lia). done.
Qed.

Lemma filled_new m newOrder oppositeOrder q :
  newOrder ≠ oppositeOrder →
  filled m newOrder oppositeOrder q newOrder =
    with_quantity (m newOrder) (quantity (m newOrder) - q).
Proof. intros. unfold filled. rewrite store_ne by done. by rewrite store_eq. Qed.

Lemma filled_opposite m newOrder oppositeOrder q :
  filled m newOrder oppositeOrder q oppositeOrder =
    with_quantity (m oppositeOrder) (quantity (m oppositeOrder) - q).
Proof. unfold filled. by rewrite store_eq. Qed.

Lemma filled_other m newOrder oppositeOrder q p :
  p ≠ newOrder → p ≠ oppositeOrder → filled m newOrder oppositeOrder q p = m p.
Proof. intros. unfold filled. by rewrite !store_ne. Qed.

Lemma filled_same_static m newOrder oppositeOrder q :
  same_static m (filled m newOrder oppositeOrder q).
Proof.
  intros p. unfold filled, store. repeat case_decide; subst; done.
Qed.

(** ** The inner loop *)

Lemma order_ids_same_static m m' l : same_static m m' → order_ids m' l = order_ids m l.
Proof.
  intros Hss. unfold order_ids. apply list_fmap_ext. intros _ p _.
  by destruct (Hss p) as (-> & _).
Qed.

Lemma resting_id_trade_between m newOrder oppositeOrder q :
  resting_id (side (m newOrder)) (trade_between m newOrder oppositeOrder q) =
    orderId (m oppositeOrder).
Proof. unfold trade_between. by destruct (side (m newOrder)). Qed.

Lemma incoming_id_trade_between m newOrder oppositeOrder q :
  incoming_id (side (m newOrder)) (trade_between m newOrder oppositeOrder q) =
    orderId (m newOrder).
Proof. unfold trade_between. by destruct (side (m newOrder)). Qed.

Lemma matchLevel_exhausted fuel newOrder st l trades :
  quantity (mem st newOrder) = 0%N →
  matchLevel (S fuel) newOrder st l trades = Returns (st, l, trades).
Proof. intros Hq. simpl. destruct l; [done|]. by rewrite decide_True. Qed.

Lemma level_run_stay newOrder st l :
  (∀ p, p ∈ l → (0 < quantity (mem st p))%N) →
  l = [] ∨ quantity (mem st newOrder) = 0%N →
  level_run newOrder st l st l [].
Proof.
  intros Hpos Hstop. split; try done.
  exists [], []. split; [done|]. split; [apply prefix_nil|]. split; [done|].
  intros id. case_decide as Hin; [by apply elem_of_nil in Hin | done].
Qed.

Lemma matchLevel_spec newOrder l :
  ∀ st trades fuel,
    (length l < fuel)%nat →
    newOrder ∉ l → NoDup l →
    (∀ p, p ∈ l → side (mem st p) = opposite (side (mem st newOrder)) ∧
                  (0 < quantity (mem st p))%N) →
    ∃ st' l' new_trades,
      matchLevel fuel newOrder st l trades = Returns (st', l', trades ++ new_trades) ∧
      level_run newOrder st l st' l' new_trades.
Proof.
  induction l as [|opp rest IH]; intros st trades fuel Hfuel Hnew Hnd Hl.
  { destruct fuel as [|fuel]; [simpl in Hfuel; lia|].
    exists st, [], []. rewrite app_nil_r. split; [done|].
    apply level_run_stay; [by intros ? ?%elem_of_nil | by left]. }
  destruct fuel as [|fuel]; [simpl in Hfuel; lia|]. simpl in Hfuel.
  apply not_elem_of_cons in Hnew as [Hne Hnew].
  apply NoDup_cons in Hnd as [Hopp Hnd].
  destruct (Hl opp) as [Hside Hqo]; [left|].
  destruct (decide (quantity (mem st newOrder) = 0%N)) as [Hz|Hnz].
  { exists st, (opp :: rest), []. rewrite app_nil_r. split.
    - by apply matchLevel_exhausted.
    - apply level_run_stay; [|by right]. intros p Hp. by apply Hl. }
  cbn [matchLevel]. rewrite decide_False by done.
  rewrite matchFront_Returns by done.
  set (q := N.min (quantity (mem st newOrder)) (quantity (mem st opp))).
  set (m' := filled (mem st) newOrder opp q).
  set (t := trade_between (mem st) newOrder opp q).
  pose proof (filled_same_static (mem st) newOrder opp q) as Hss. fold m' in Hss.
  destruct (decide (quantity (mem st opp) ≤ quantity (mem st newOrder))%N) as [Hle|Hgt].
  - (* the front order is filled and erased *)
    set (st1 := set_orders (set_mem st m') (delete (orderId (mem st opp)) (orders_ st))).
    destruct (IH st1 (trades ++ [t]) fuel) as (st' & l' & tr & Hrun & Hres);
      [lia | done | done | |].
    { intros p Hp. change (mem st1) with m'.
      destruct (Hss newOrder) as (_ & -> & _). unfold m'.
      rewrite filled_other by (intros ->; done). by apply Hl; right. }
    exists st', l', (t :: tr). split.
    { rewrite Hrun. by rewrite <-app_assoc. }
    destruct Hres as [Hb Ha Hst (consumed & partial & Hsplit & Hpre & Hids & Hord) Hoth Hrest Hstop Hinc].
    simpl in *. destruct (Hss newOrder) as (Hnid & Hnsd & _).
    split; try done.
    + by eapply same_static_trans.
    + exists (opp :: consumed), partial. split; [by rewrite Hsplit|]. split; [done|].
      split.
      * rewrite Hnsd in Hids. rewrite fmap_cons, Hids. unfold t.
        rewrite resting_id_trade_between.
        by rewrite (order_ids_same_static _ _ _ Hss).
      * intros id. rewrite Hord, (order_ids_same_static _ _ _ Hss).
        change (order_ids (mem st) (opp :: consumed))
          with (orderId (mem st opp) :: order_ids (mem st) consumed).
        destruct (decide (id = orderId (mem st opp))) as [->|Hid].
        -- rewrite lookup_delete_eq. rewrite (decide_True (P := _ ∈ _ :: _)) by left.
           by case_decide.
        -- rewrite lookup_delete_ne by done.
           destruct (decide (id ∈ order_ids (mem st) consumed)).
           ++ rewrite decide_True; [done | by right].
           ++ rewrite decide_False; [done|]. by intros [?|?]%elem_of_cons.
    + intros p Hp [Hpo Hpr]%not_elem_of_cons. rewrite Hoth by done.
      unfold m'. by rewrite filled_other.
    + constructor.
      * unfold t. apply incoming_id_trade_between.
      * by rewrite Hnid, Hnsd in Hinc.
  - (* the incoming order is exhausted on the front order *)
    assert (quantity (m' newOrder) = 0%N) as Hzero.
    { unfold m'. rewrite filled_new by done. simpl. unfold q. lia. }
    destruct fuel as [|fuel]; [lia|].
    exists (set_mem st m'), (opp :: rest), [t]. split.
    { by rewrite matchLevel_exhausted. }
    split; simpl; try done.
    + exists [], [opp]. split; [done|]. split; [by exists rest|]. split.
      * simpl. unfold t. by rewrite resting_id_trade_between.
      * intros id. case_decide as Hin; [by apply elem_of_nil in Hin | done].
    + intros p Hp [Hpo Hpr]%not_elem_of_cons. unfold m'. by rewrite filled_other.
    + intros p [->|Hp]%elem_of_cons.
      * unfold m'. rewrite filled_opposite. simpl. unfold q. lia.
      * unfold m'. rewrite filled_other by (intros ->; done). by apply Hl; right.
    + by right.
    + constructor; [|done]. unfold t. apply incoming_id_trade_between.
Qed.

(** ** Writing a level back *)

Lemma getPriceLevelMap_ext st st' sd :
  bids_ st' = bids_ st → asks_ st' = asks_ st → getPriceLevelMap sd st' = getPriceLevelMap sd st.
Proof. destruct sd; simpl; congruence. Qed.

Lemma write_back_mem opp k l' st : mem (write_back opp k l' st) = mem st.
Proof. unfold write_back. by rewrite mem_set_PriceLevelMap. Qed.

Lemma write_back_orders opp k l' st : orders_ (write_back opp k l' st) = orders_ st.
Proof. unfold write_back. by rewrite orders_set_PriceLevelMap. Qed.

Lemma write_back_find opp k l' st sd k' :
  plm_sorted (getPriceLevelMap opp st) →
  plm_find k' (getPriceLevelMap sd (write_back opp k l' st)) =
    if decide (sd = opp ∧ k' = k) then surviving l'
    else plm_find k' (getPriceLevelMap sd st).
Proof.
  intros Hs. unfold write_back. rewrite get_set_PriceLevelMap.
  destruct (decide (sd = opp)) as [->|?].
  - destruct l' as [|q l'].
    + rewrite plm_find_erase by done.
      destruct (decide (k = k')) as [->|?].
      * by rewrite decide_True.
      * rewrite decide_False; [done | intros [? ?]; congruence].
    + rewrite plm_find_put.
      destruct (decide (k = k')) as [->|?].
      * by rewrite decide_True.
      * rewrite decide_False; [done | intros [? ?]; congruence].
  - rewrite decide_False; [done | intros [? ?]; congruence].
Qed.

Lemma write_back_sorted opp k l' st sd :
  plm_sorted (getPriceLevelMap sd st) →
  plm_sorted (getPriceLevelMap sd (write_back opp k l' st)).
Proof.
  intros Hs. unfold write_back. rewrite get_set_PriceLevelMap.
  case_decide; subst; [|done]. destruct l'; auto using plm_erase_sorted, plm_put_sorted.
Qed.

(** An identifier belongs to one indexed order only. *)
Lemma indexed_id_inj st p q :
  orders_ st !! orderId (mem st p) = Some p →
  orders_ st !! orderId (mem st q) = Some q →
  orderId (mem st p) = orderId (mem st q) → p = q.
Proof. intros Hp Hq Heq. rewrite Heq in Hp. congruence. Qed.

Lemma order_ids_elem_of st p l :
  orders_ st !! orderId (mem st p) = Some p →
  (∀ q, q ∈ l → orders_ st !! orderId (mem st q) = Some q) →
  orderId (mem st p) ∈ order_ids (mem st) l → p ∈ l.
Proof.
  intros Hp Hl (q & Heq & Hq)%list_elem_of_fmap.
  rewrite (indexed_id_inj st p q); auto.
Qed.

Lemma structured_consume st st1 opp k consumed l' :
  structured None st →
  plm_find k (getPriceLevelMap opp st) = Some (consumed ++ l') →
  bids_ st1 = bids_ st → asks_ st1 = asks_ st →
  same_static (mem st) (mem st1) →
  (∀ id, orders_ st1 !! id =
           if decide (id ∈ order_ids (mem st) consumed) then None else orders_ st !! id) →
  structured None (write_back opp k l' st1).
Proof.
  intros [Hs Hl Hi _] Hf Hb Ha Hss Hord.
  pose proof (λ sd, getPriceLevelMap_ext st st1 sd Hb Ha) as Hled.
  assert (∀ sd k', plm_find k' (getPriceLevelMap sd (write_back opp k l' st1)) =
            if decide (sd = opp ∧ k' = k) then surviving l'
            else plm_find k' (getPriceLevelMap sd st)) as Hfind.
  { intros sd k'. rewrite write_back_find by (rewrite Hled; apply Hs). by rewrite Hled. }
  destruct (Hl _ _ _ Hf) as [(Hne & Hnd & Hfifo & Hmemb) _].
  assert (∀ q, q ∈ consumed → orders_ st !! orderId (mem st q) = Some q) as Hcons.
  { intros q Hq. apply Hmemb, elem_of_app. by left. }
  assert (∀ p, orders_ st !! orderId (mem st p) = Some p → p ∉ consumed →
               orders_ st1 !! orderId (mem st1 p) = Some p) as Hkeep.
  { intros p Hp Hnin. destruct (Hss p) as (-> & _). rewrite Hord.
    rewrite decide_False; [done|]. intros Hin. apply Hnin. by eapply order_ids_elem_of. }
  split.
  - intros sd. apply write_back_sorted. rewrite Hled. apply Hs.
  - intros sd k' l0. rewrite Hfind. unfold level_ok.
    rewrite write_back_mem, write_back_orders.
    case_decide as Hc.
    + destruct Hc as [-> ->]. intros [-> Hne']%surviving_Some. split; [|done].
      apply NoDup_app in Hnd as (_ & Hdisj & Hnd').
      split; [done|]. split; [done|].
      split; [eapply fifo_same_static, fifo_suffix; done|].
      intros q Hq. destruct (Hmemb q) as (Hq1 & Hq2 & Hq3); [apply elem_of_app; by right|].
      destruct (Hss q) as (_ & -> & -> & _). split; [done|]. split; [done|].
      apply Hkeep; [done|]. intros Hqc. by eapply Hdisj.
    + intros Hf0. destruct (Hl _ _ _ Hf0) as [(Hne0 & Hnd0 & Hfifo0 & Hmemb0) _].
      split; [|done]. split; [done|]. split; [done|].
      split; [by eapply fifo_same_static|].
      intros q Hq. destruct (Hmemb0 q Hq) as (Hq1 & Hq2 & Hq3).
      destruct (Hss q) as (_ & -> & -> & _). split; [done|]. split; [done|].
      apply Hkeep; [done|]. intros Hqc. apply Hc.
      destruct (Hmemb q) as (? & ? & _); [apply elem_of_app; by left|]. split; congruence.
  - intros id p. rewrite write_back_orders, write_back_mem, Hord.
    case_decide as Hin; [done|]. intros Hp.
    destruct (Hi _ _ Hp) as [Hpid Hlk]. destruct (Hss p) as (Hp1 & Hp2 & Hp3 & _).
    split; [congruence|]. intros _.
    destruct Hlk as (lp & Hfp & Hinp); [done|].
    assert (p ∉ consumed) as Hpc.
    { intros Hpc. apply Hin. rewrite <-Hpid. apply list_elem_of_fmap. eauto. }
    unfold linked. rewrite write_back_mem, Hfind, Hp2, Hp3. case_decide as Hc.
    + destruct Hc as [Hsd Hk]. rewrite Hsd, Hk in Hfp. simplify_eq.
      apply elem_of_app in Hinp as [?|Hinp]; [done|].
      exists l'. split; [|done]. destruct l'; [by apply elem_of_nil in Hinp | done].
    + eauto.
  - done.
Qed.

(** ** The outer loop *)

Lemma best_level_None sd m : best_level sd m = None → m = [].
Proof.
  destruct sd; simpl.
  - by destruct m.
  - by intros ?%last_None.
Qed.

Lemma best_level_find sd m k l :
  plm_sorted m → best_level sd m = Some (k, l) →
  plm_find k m = Some l ∧
  ∀ p k' l', plm_find k' m = Some l' → ¬ crosses sd p k → ¬ crosses sd p k'.
Proof.
  intros Hs Hb. destruct sd; simpl in *.
  - destruct (plm_head_min _ _ _ Hs Hb) as [Hf Hmin]. split; [done|].
    intros p k' l' Hf' Hn Hc. apply Hn. etrans; [by eapply Hmin | done].
  - destruct (plm_last_max _ _ _ Hs Hb) as [Hf Hmax]. split; [done|].
    intros p k' l' Hf' Hn Hc. apply Hn. etrans; [done | by eapply Hmax].
Qed.

Lemma plm_erase_last k l m : k ∉ m.*1 → plm_erase k (m ++ [(k, l)]) = m.
Proof.
  induction m as [|[k1 l1] m IH]; simpl.
  - intros _. by rewrite decide_True.
  - intros [? ?]%not_elem_of_cons. rewrite decide_False by done. f_equal. auto.
Qed.

Lemma plm_sorted_snoc_fresh k l m : plm_sorted (m ++ [(k, l)]) → k ∉ m.*1.
Proof.
  unfold plm_sorted. rewrite fmap_app. simpl. intros Hs Hin.
  apply (Qclt_not_eq k k); [|done].
  eapply StronglySorted_app_1_elem_of; [done.. | left].
Qed.

(** The best level heads the priority order, and erasing it leaves the
    priority order of the remaining levels. *)
Lemma by_priority_best sd m k l :
  plm_sorted m → best_level sd m = Some (k, l) →
  by_priority sd m = (k, l) :: by_priority sd (plm_erase k m).
Proof.
  intros Hs Hb. destruct sd; simpl in *.
  - destruct m as [|[k1 l1] m]; simplify_eq/=. by rewrite decide_True.
  - apply last_Some in Hb as [m' ->].
    rewrite plm_erase_last by (by eapply plm_sorted_snoc_fresh).
    by rewrite reverse_snoc.
Qed.

Lemma plm_erase_length k l m :
  plm_find k m = Some l → (length (plm_erase k m) < length m)%nat.
Proof.
  induction m as [|[k1 l1] m IH]; simpl; [done|].
  case_decide; simpl; [lia|]. intros ?%IH. lia.
Qed.

Lemma matchLoop_unfold fuel opp newOrder st trades :
  matchLoop (S fuel) opp newOrder st trades =
    if decide (quantity (mem st newOrder) = 0%N) then Returns (st, trades)
    else
      match best_level (side (mem st newOrder)) (getPriceLevelMap opp st) with
      | None => Returns (st, trades)
      | Some (k, l) =>
          if decide (crosses (side (mem st newOrder)) (price (mem st newOrder)) k)
          then
            match matchLevel (S (length l)) newOrder st l trades with
            | Throws => Throws
            | Diverges => Diverges
            | Returns (st', l', trades') =>
                matchLoop fuel opp newOrder (write_back opp k l' st') trades'
            end
          else Returns (st, trades)
      end.
Proof.
  cbn [matchLoop]. case_decide; [done|].
  unfold best_level, crosses.
  destruct (side (mem st newOrder)).
  - destruct (head _) as [[k l]|]; [|done].
    destruct (decide (k ≤ price (mem st newOrder))).
    + rewrite bool_decide_eq_true_2 by done. cbn [negb].
      destruct (matchLevel _ _ _ _ _) as [[[st' l'] tr]| |]; try done.
    + rewrite bool_decide_eq_false_2 by done. done.
  - destruct (list.last _) as [[k l]|]; [|done].
    destruct (decide (price (mem st newOrder) ≤ k)).
    + rewrite bool_decide_eq_true_2 by done. cbn [negb].
      destruct (matchLevel _ _ _ _ _) as [[[st' l'] tr]| |]; try done.
    + rewrite bool_decide_eq_false_2 by done. done.
Qed.

Lemma loop_run_stay newOrder st :
  structured None st → resting_positive newOrder st →
  (quantity (mem st newOrder) = 0%N ∨
   ∀ k l, plm_find k (getPriceLevelMap (opposite (side (mem st newOrder))) st) = Some l →
          ¬ crosses (side (mem st newOrder)) (price (mem st newOrder)) k) →
  loop_run newOrder st st [].
Proof.
  intros Hst Hpos Hstop.
  split; [done | done | apply same_static_refl | done | done | | done | apply prefix_nil | done].
  intros k l' Hf. eauto.
Qed.

Lemma matchLoop_spec newOrder opp fuel :
  ∀ st trades,
    structured None st → resting_positive newOrder st →
    opp = opposite (side (mem st newOrder)) →
    (length (getPriceLevelMap opp st) < fuel)%nat →
    ∃ st' new_trades,
      matchLoop fuel opp newOrder st trades = Returns (st', trades ++ new_trades) ∧
      loop_run newOrder st st' new_trades.
Proof.
  induction fuel as [|fuel IH]; intros st trades Hst Hpos Hopp Hfuel; [lia|].
  rewrite matchLoop_unfold.
  destruct (decide (quantity (mem st newOrder) = 0%N)) as [Hq|Hq].
  { exists st, []. rewrite app_nil_r. split; [done|]. apply loop_run_stay; auto. }
  destruct (best_level _ _) as [[k l]|] eqn:Hbest.
  2:{ apply best_level_None in Hbest. exists st, []. rewrite app_nil_r. split; [done|].
      apply loop_run_stay; [done..|]. right. intros k l. by rewrite <-Hopp, Hbest. }
  destruct (best_level_find _ _ _ _ (s_sorted _ _ Hst opp) Hbest) as [Hf Hworse].
  destruct (decide (crosses _ _ k)) as [Hcross|Hcross].
  2:{ exists st, []. rewrite app_nil_r. split; [done|].
      apply loop_run_stay; [done..|]. right. intros k' l'. rewrite <-Hopp.
      intros Hf'. by eapply Hworse. }
  destruct (s_level _ _ Hst _ _ _ Hf) as [(Hne & Hnd & Hfifo & Hmemb) _].
  assert (newOrder ∉ l) as Hnew.
  { intros Hin. destruct (Hmemb _ Hin) as (Hs & _). rewrite Hopp in Hs.
    symmetry in Hs. by eapply opposite_ne. }
  destruct (matchLevel_spec newOrder l st trades (S (length l)))
    as (st1 & l' & tr1 & Hrun & Hres); [lia | done | done | |].
  { intros p Hp. destruct (Hmemb p Hp) as (Hs & Hk & Hidx). split; [congruence|].
    eapply Hpos; [exact Hidx|]. by intros ->. }
  rewrite Hrun.
  destruct Hres as [Hb Ha Hss (consumed & partial & Hsplit & Hpre & Hids & Hord)
                      Hoth Hrest Hstop Hinc].
  set (st2 := write_back opp k l' st1).
  pose proof (λ sd, getPriceLevelMap_ext st st1 sd Hb Ha) as Hled.
  assert (mem st2 = mem st1) as Hm2 by apply write_back_mem.
  assert (structured None st2) as Hst2.
  { eapply structured_consume; eauto. by rewrite <-Hsplit. }
  assert (resting_positive newOrder st2) as Hpos2.
  { intros id p. rewrite Hm2. unfold st2. rewrite write_back_orders, Hord.
    case_decide as Hin; [done|]. intros Hp Hpn.
    destruct (decide (p ∈ l)) as [Hpl|Hpl].
    - rewrite Hsplit in Hpl. apply elem_of_app in Hpl as [Hc|Hl']; [|by apply Hrest].
      exfalso. apply Hin. destruct (s_index _ _ Hst _ _ Hp) as [<- _].
      apply list_elem_of_fmap. eauto.
    - rewrite Hoth by done. by eapply Hpos. }
  destruct (Hss newOrder) as (Hnid & Hnsd & Hnpr & _).
  assert (∀ sd k', plm_find k' (getPriceLevelMap sd st2) =
            if decide (sd = opp ∧ k' = k) then surviving l'
            else plm_find k' (getPriceLevelMap sd st)) as Hfind2.
  { intros sd k'. unfold st2. rewrite write_back_find by (rewrite Hled; apply Hst).
    by rewrite Hled. }
  assert (getPriceLevelMap (side (mem st newOrder)) st2 =
          getPriceLevelMap (side (mem st newOrder)) st) as Hown2.
  { unfold st2, write_back. rewrite get_set_PriceLevelMap.
    rewrite decide_False; [apply Hled|]. rewrite Hopp. intros Heq.
    symmetry in Heq. by eapply opposite_ne. }
  assert (∀ id p, orders_ st2 !! id = Some p → orders_ st !! id = Some p) as Hidx2.
  { intros id p. unfold st2. rewrite write_back_orders, Hord. by case_decide. }
  assert (∀ k' l0, plm_find k' (getPriceLevelMap opp st2) = Some l0 →
                   is_Some (plm_find k' (getPriceLevelMap opp st))) as Hlev2.
  { intros k' l0. rewrite Hfind2. case_decide as Hc; [|eauto].
    destruct Hc as [_ ->]. rewrite Hf. eauto. }
  set (tail_queue := order_ids (mem st)
         (concat (snd <$> by_priority (side (mem st newOrder))
                            (plm_erase k (getPriceLevelMap opp st))))).
  assert (order_ids (mem st) (priority_queue (side (mem st newOrder)) st) =
          order_ids (mem st) l ++ tail_queue) as Hhead.
  { unfold priority_queue, tail_queue. rewrite <-Hopp.
    rewrite (by_priority_best _ _ k l) by (done || apply Hst).
    simpl. unfold order_ids. by rewrite fmap_app. }
  destruct l' as [|r l''].
  - (* the level is cleared: the loop goes on with the next one *)
    rewrite app_nil_r in Hsplit. subst consumed.
    apply prefix_nil_inv in Hpre. subst partial. rewrite app_nil_r in Hids.
    assert (getPriceLevelMap opp st2 = plm_erase k (getPriceLevelMap opp st)) as Hopp2.
    { unfold st2, write_back. by rewrite get_set_PriceLevelMap, decide_True, Hled. }
    destruct (IH st2 (trades ++ tr1)) as (st' & tr2 & Hrun2 & Hres2); [done | done | | |].
    { by rewrite Hm2, Hnsd. }
    { rewrite Hopp2. pose proof (plm_erase_length _ _ _ Hf). lia. }
    exists st', (tr1 ++ tr2). split; [by rewrite Hrun2, app_assoc|].
    destruct Hres2 as [R1 R2 R3 R4 R5 R6 R7 R8 R9].
    rewrite Hm2, Hnsd in R4, R6, R7, R8, R9. rewrite Hm2 in R3.
    rewrite Hnpr in R7. rewrite Hnid in R9. rewrite <-Hopp in R6, R7.
    split.
    + done.
    + done.
    + by eapply same_static_trans.
    + by rewrite R4.
    + intros id p Hp. by apply Hidx2, R5.
    + rewrite <-Hopp. intros k' l0 Hf'. destruct (R6 _ _ Hf') as [l1 Hf1]. by eapply Hlev2.
    + by rewrite <-Hopp.
    + rewrite fmap_app, Hids, Hhead. apply prefix_app.
      rewrite (order_ids_same_static _ _ _ Hss) in R8.
      unfold priority_queue in R8. rewrite <-Hopp, Hopp2 in R8. done.
    + apply Forall_app. done.
  - (* the incoming order is exhausted: the loop ends *)
    destruct Hstop as [?|Hzero]; [done|].
    destruct fuel as [|fuel]. { pose proof (plm_erase_length _ _ _ Hf). lia. }
    rewrite matchLoop_unfold. rewrite decide_True by (by rewrite Hm2).
    exists st2, tr1. split; [done|].
    split.
    + done.
    + done.
    + by rewrite Hm2.
    + done.
    + done.
    + by rewrite <-Hopp.
    + left. by rewrite Hm2.
    + rewrite Hids, Hhead, Hsplit. destruct Hpre as [rest ->].
      exists (order_ids (mem st) rest ++ tail_queue).
      unfold order_ids. rewrite !fmap_app, <-!app_assoc. done.
    + done.
Qed.

(** ** [matchOrders] *)

Lemma uncrossed_sided st sd :
  uncrossed st ↔
  ∀ ko lo kp lp,
    plm_find ko (getPriceLevelMap sd st) = Some lo →
    plm_find kp (getPriceLevelMap (opposite sd) st) = Some lp → apart sd ko kp.
Proof. unfold uncrossed. destruct sd; simpl; naive_solver. Qed.

Lemma uncrossed_but_sided x st sd :
  uncrossed_but x st ↔
  ∀ ko lo kp lp,
    plm_find ko (getPriceLevelMap sd st) = Some lo →
    plm_find kp (getPriceLevelMap (opposite sd) st) = Some lp →
    lo ≠ [x] → lp ≠ [x] → apart sd ko kp.
Proof. unfold uncrossed_but. destruct sd; simpl; naive_solver. Qed.

Lemma not_crosses_apart sd p k : ¬ crosses sd p k → apart sd p k.
Proof. destruct sd; simpl; apply Qclt_nge. Qed.

Lemma linked_indexed st p : structured None st → linked st p →
  orders_ st !! orderId (mem st p) = Some p.
Proof.
  intros Hst (l & Hf & Hin). destruct (s_level _ _ Hst _ _ _ Hf) as [(_ & _ & _ & Hm) _].
  by apply Hm.
Qed.

Lemma matchOrders_spec newOrder st :
  structured None st → resting_positive newOrder st →
  orders_ st !! orderId (mem st newOrder) = Some newOrder →
  ∃ st' trades, matchOrders newOrder st = Returns (st', trades) ∧
                match_run newOrder st st' trades.
Proof.
  intros Hst Hpos Hidx. unfold matchOrders.
  set (sd := side (mem st newOrder)).
  destruct (matchLoop_spec newOrder (opposite sd) (S (length (getPriceLevelMap (opposite sd) st)))
              st []) as (st1 & tr & Hrun & Hres); [done | done | done | lia |].
  rewrite Hrun. simpl.
  destruct Hres as [R1 R2 R3 R4 R5 R6 R7 R8 R9]. fold sd in R4, R6, R7, R8, R9.
  destruct (R3 newOrder) as (Hnid & Hnsd & Hnpr & _).
  destruct (s_index _ _ Hst _ _ Hidx) as [_ Hlk]. destruct Hlk as (l & Hf & Hin); [done|].
  fold sd in Hf.
  assert (linked st1 newOrder) as Hlk1.
  { exists l. rewrite Hnsd, Hnpr. fold sd. by rewrite R4. }
  pose proof (linked_indexed _ _ R1 Hlk1) as Hidx1.
  assert (∀ kp lp, plm_find kp (getPriceLevelMap (opposite sd) st) = Some lp → lp ≠ [newOrder])
    as Hopp_other.
  { intros kp lp Hfp ->. destruct (s_level _ _ Hst _ _ _ Hfp) as [Hlv _].
    destruct (level_ok_place _ _ _ _ newOrder Hlv) as [Hs _]; [left|].
    by eapply opposite_ne. }
  destruct (decide (quantity (mem st1 newOrder) = 0%N)) as [Hz|Hnz].
  - (* fully filled: the order leaves the index and its level *)
    exists (removeOrderFromPriceLevel newOrder
              (set_orders st1 (delete (orderId (mem st1 newOrder)) (orders_ st1)))), tr.
    split; [done|].
    rewrite removeOrderFromPriceLevel_set_orders.
    pose proof (structured_remove _ _ _ R1 Hidx1) as Hdet.
    pose proof (structured_erase _ _ Hdet) as Hfin.
    rewrite removeOrderFromPriceLevel_mem, removeOrderFromPriceLevel_orders in Hfin.
    split.
    + split; [done|]. intros id p. simpl. rewrite removeOrderFromPriceLevel_mem.
      rewrite lookup_delete_Some. intros [Hne Hp]. eapply R2; [done|].
      intros ->. apply Hne. destruct (s_index _ _ R1 _ _ Hp) as [? _]. done.
    + simpl. by rewrite removeOrderFromPriceLevel_mem.
    + intros id p. simpl. rewrite lookup_delete_Some. intros [_ Hp]. by apply R5.
    + intros Hunc. apply (uncrossed_sided _ sd). intros ko lo kp lp.
      rewrite !getPriceLevelMap_set_orders.
      destruct Hlk1 as (l1 & Hf1 & Hin1).
      rewrite (removeOrderFromPriceLevel_find newOrder st1 l1) by (done || apply R1).
      rewrite (removeOrderFromPriceLevel_find newOrder st1 l1) by (done || apply R1).
      rewrite Hnsd. fold sd.
      rewrite (decide_False (P := opposite sd = sd ∧ _)) by (intros [? _]; by eapply opposite_ne).
      intros Ho Hp. destruct (R6 _ _ Hp) as [lp0 Hp0].
      rewrite Hnsd, Hnpr in Hf1. fold sd in Hf1. rewrite R4 in Hf1. simplify_eq.
      case_decide as Hc.
      * destruct Hc as [_ ->]. apply surviving_Some in Ho as [-> Hne]. rewrite Hnpr.
        eapply (uncrossed_but_sided newOrder st sd); [done|exact Hf|exact Hp0| |by eapply Hopp_other].
        intros ->. apply Hne. simpl. by rewrite decide_True.
      * rewrite R4 in Ho.
        eapply (uncrossed_but_sided newOrder st sd); [done|exact Ho|exact Hp0| |by eapply Hopp_other].
        intros ->. destruct (s_level _ _ Hst _ _ _ Ho) as [Hlv _].
        destruct (level_ok_place _ _ _ _ newOrder Hlv) as [_ Hk]; [left|].
        apply Hc. by rewrite Hnpr.
    + done.
    + done.
  - (* some quantity remains: the order rests *)
    exists st1, tr. split; [done|]. split.
    + split; [done|]. intros id p Hp. destruct (decide (p = newOrder)) as [->|Hne]; [lia|].
      by eapply R2.
    + done.
    + done.
    + intros Hunc. apply (uncrossed_sided _ sd). intros ko lo kp lp.
      rewrite R4. intros Ho Hp. destruct (R6 _ _ Hp) as [lp0 Hp0].
      destruct (decide (lo = [newOrder])) as [->|Hlo].
      * destruct (s_level _ _ Hst _ _ _ Ho) as [Hlv _].
        destruct (level_ok_place _ _ _ _ newOrder Hlv) as [_ Hk]; [left|]. subst ko.
        destruct R7 as [?|R7]; [done|]. apply not_crosses_apart. by eapply R7.
      * eapply (uncrossed_but_sided newOrder st sd); [done|exact Ho|exact Hp0|done|].
        by eapply Hopp_other.
    + done.
    + done.
Qed.

(** ** The public operations *)

Lemma removeOrderFromPriceLevel_keys p st sd k l' :
  (∀ sd, plm_sorted (getPriceLevelMap sd st)) →
  plm_find k (getPriceLevelMap sd (removeOrderFromPriceLevel p st)) = Some l' →
  is_Some (plm_find k (getPriceLevelMap sd st)).
Proof.
  intros Hs. unfold removeOrderFromPriceLevel.
  destruct (plm_find (price _) _) as [l|] eqn:Hf; [|eauto].
  case_decide; [|eauto].
  destruct (erase_first p l); rewrite get_set_PriceLevelMap;
    (case_decide; subst; [|eauto]).
  - rewrite plm_find_erase by done. case_decide; [done|eauto].
  - rewrite plm_find_put. case_decide; subst; [|eauto]. rewrite Hf. eauto.
Qed.

Lemma uncrossed_remove p st :
  (∀ sd, plm_sorted (getPriceLevelMap sd st)) →
  uncrossed st → uncrossed (removeOrderFromPriceLevel p st).
Proof.
  intros Hs Hunc kb lb ka la Hb Ha.
  destruct (removeOrderFromPriceLevel_keys p st BUY kb lb Hs Hb) as [lb0 Hb0].
  destruct (removeOrderFromPriceLevel_keys p st SELL ka la Hs Ha) as [la0 Ha0].
  by eapply Hunc.
Qed.

Lemma uncrossed_link p st :
  uncrossed st → uncrossed_but p (addOrderToPriceLevel p st).
Proof.
  intros Hunc.
  assert (∀ sd k l, plm_find k (getPriceLevelMap sd (addOrderToPriceLevel p st)) = Some l →
                    l ≠ [p] → is_Some (plm_find k (getPriceLevelMap sd st))) as Hkeys.
  { intros sd k l. rewrite addOrderToPriceLevel_find. case_decide as Hc; [|eauto].
    destruct Hc as [-> ->]. destruct (plm_find _ _) as [old|]; [eauto|].
    simpl. by intros [= <-]. }
  intros kb lb ka la Hb Ha Hlb Hla.
  destruct (Hkeys BUY kb lb Hb Hlb) as [lb0 Hb0].
  destruct (Hkeys SELL ka la Ha Hla) as [la0 Ha0].
  by eapply Hunc.
Qed.

(** The state in which [addOrder] calls [matchOrders]. *)
Lemma addOrder_unfold p st :
  quantity (mem st p) ≠ 0%N → orders_ st !! orderId (mem st p) = None →
  addOrder (Some p) st =
    match matchOrders p (addOrderToPriceLevel p
                           (set_orders st (<[orderId (mem st p) := p]> (orders_ st)))) with
    | Throws => Throws
    | Diverges => Diverges
    | Returns (st3, trades) => Returns (true, st3, trades)
    end.
Proof. intros Hq Hid. unfold addOrder. rewrite decide_False by done. by rewrite Hid. Qed.

Lemma addOrder_accepts p st :
  WF st → quantity (mem st p) ≠ 0%N → orders_ st !! orderId (mem st p) = None →
  ∃ st' trades,
    addOrder (Some p) st = Returns (true, st', trades) ∧
    match_run p (addOrderToPriceLevel p
                   (set_orders st (<[orderId (mem st p) := p]> (orders_ st)))) st' trades.
Proof.
  intros [Hst Hpos] Hq Hid. rewrite addOrder_unfold by done.
  set (st2 := addOrderToPriceLevel p _).
  assert (mem st2 = mem st) as Hm2 by (unfold st2; by rewrite addOrderToPriceLevel_mem).
  assert (orders_ st2 = <[orderId (mem st p) := p]> (orders_ st)) as Ho2
      by (unfold st2; by rewrite addOrderToPriceLevel_orders).
  destruct (matchOrders_spec p st2) as (st' & tr & Hrun & Hres).
  - apply structured_link. by apply (structured_register st p).
  - intros id q. rewrite Hm2, Ho2. rewrite lookup_insert_Some.
    intros [[_ <-]|[_ Hq']] Hne; [done|]. by eapply Hpos.
  - rewrite Hm2, Ho2. by rewrite lookup_insert_eq.
  - exists st', tr. by rewrite Hrun.
Qed.

Lemma cancelOrder_known id p st :
  WF st → orders_ st !! id = Some p →
  cancelOrder id st =
    (true, set_orders (removeOrderFromPriceLevel p st) (delete id (orders_ st))) ∧
  WF (set_orders (removeOrderFromPriceLevel p st) (delete id (orders_ st))).
Proof.
  intros [Hst Hpos] Hid. unfold cancelOrder. rewrite Hid.
  rewrite removeOrderFromPriceLevel_orders. split; [done|].
  pose proof (structured_erase _ _ (structured_remove _ _ _ Hst Hid)) as Hfin.
  rewrite removeOrderFromPriceLevel_mem, removeOrderFromPriceLevel_orders in Hfin.
  destruct (s_index _ _ Hst _ _ Hid) as [Hpid _]. rewrite Hpid in Hfin.
  split; [done|]. intros id' q. simpl. rewrite removeOrderFromPriceLevel_mem.
  rewrite lookup_delete_Some. intros [_ Hq]. by eapply Hpos.
Qed.

Lemma modifyOrder_unfold id p newPrice newQuantity now st :
  orders_ st !! id = Some p →
  modifyOrder id newPrice newQuantity now st =
    match matchOrders p (modified p newPrice newQuantity now st) with
    | Throws => Throws
    | Diverges => Diverges
    | Returns (st4, trades) => Returns (true, st4, trades)
    end.
Proof. intros Hid. unfold modifyOrder. by rewrite Hid. Qed.

Lemma modified_mem p newPrice newQuantity now st :
  mem (modified p newPrice newQuantity now st) =
    store (mem st) p (mkOrder (orderId (mem st p)) (side (mem st p)) newPrice newQuantity now).
Proof.
  unfold modified. rewrite addOrderToPriceLevel_mem. simpl.
  by rewrite removeOrderFromPriceLevel_mem.
Qed.

Lemma modified_orders p newPrice newQuantity now st :
  orders_ (modified p newPrice newQuantity now st) = orders_ st.
Proof.
  unfold modified. rewrite addOrderToPriceLevel_orders. simpl.
  by rewrite removeOrderFromPriceLevel_orders.
Qed.

Lemma modifyOrder_known id p newPrice newQuantity now st :
  WF st → orders_ st !! id = Some p →
  ∃ st' trades,
    modifyOrder id newPrice newQuantity now st = Returns (true, st', trades) ∧
    match_run p (modified p newPrice newQuantity now st) st' trades.
Proof.
  intros [Hst Hpos] Hid. rewrite (modifyOrder_unfold _ p) by done.
  destruct (s_index _ _ Hst _ _ Hid) as [Hpid _].
  destruct (matchOrders_spec p (modified p newPrice newQuantity now st))
    as (st' & tr & Hrun & Hres).
  - unfold modified. apply structured_link. apply structured_overwrite; [|done].
    by eapply structured_remove.
  - intros id' q. rewrite modified_mem, modified_orders. intros Hq Hne.
    rewrite store_ne by done. by eapply Hpos.
  - rewrite modified_mem, modified_orders, store_eq. simpl. by rewrite Hpid.
  - exists st', tr. by rewrite Hrun.
Qed.

(** ** The invariants along a sequence of calls *)

Lemma structured_empty m : structured None (empty_book m).
Proof.
  split.
  - intros []; apply plm_sorted_nil.
  - by intros [].
  - intros id p Hp. simpl in Hp. by rewrite lookup_empty in Hp.
  - done.
Qed.

Lemma WF_empty m : WF (empty_book m).
Proof.
  split; [apply structured_empty|].
  intros id p Hp. simpl in Hp. by rewrite lookup_empty in Hp.
Qed.

Lemma uncrossed_empty m : uncrossed (empty_book m).
Proof. by intros kb lb ka la. Qed.

Lemma addOrder_rejects order st :
  (order = None ∨
   ∃ p, order = Some p ∧
        (quantity (mem st p) = 0%N ∨ is_Some (orders_ st !! orderId (mem st p)))) →
  addOrder order st = Returns (false, st, []).
Proof.
  intros [->|(p & -> & Hrej)]; [done|]. unfold addOrder.
  case_decide; [done|]. destruct Hrej as [?|[q Hq]]; [done|]. by rewrite Hq.
Qed.

Lemma addOrder_cases order st :
  (order = None ∨
   ∃ p, order = Some p ∧
        (quantity (mem st p) = 0%N ∨ is_Some (orders_ st !! orderId (mem st p)))) ∨
  (∃ p, order = Some p ∧ quantity (mem st p) ≠ 0%N ∧ orders_ st !! orderId (mem st p) = None).
Proof.
  destruct order as [p|]; [|by left; left].
  destruct (decide (quantity (mem st p) = 0%N)); [left; right; eauto|].
  destruct (orders_ st !! orderId (mem st p)) as [q|] eqn:Hq; [|right; eauto].
  left. right. exists p. split; [done|]. right. rewrite Hq. eauto.
Qed.

Lemma addOrder_uncrossed p st :
  uncrossed st →
  uncrossed_but p (addOrderToPriceLevel p
                     (set_orders st (<[orderId (mem st p) := p]> (orders_ st)))).
Proof. intros Hunc. by apply uncrossed_link. Qed.

Lemma modified_uncrossed p newPrice newQuantity now st :
  (∀ sd, plm_sorted (getPriceLevelMap sd st)) →
  uncrossed st → uncrossed_but p (modified p newPrice newQuantity now st).
Proof.
  intros Hs Hunc. unfold modified. apply uncrossed_link.
  by apply (uncrossed_remove p) in Hunc.
Qed.

Lemma cancelOrder_unknown id st : orders_ st !! id = None → cancelOrder id st = (false, st).
Proof. intros Hid. unfold cancelOrder. by rewrite Hid. Qed.

Lemma modifyOrder_unknown id newPrice newQuantity now st :
  orders_ st !! id = None → modifyOrder id newPrice newQuantity now st = Returns (false, st, []).
Proof. intros Hid. unfold modifyOrder. by rewrite Hid. Qed.

(** Every call returns, and takes a well-formed uncrossed book to a
    well-formed uncrossed book. *)
Lemma apply_op_invariant op st :
  WF st → uncrossed st →
  ∃ st' trades, apply_op op st = Returns (st', trades) ∧ WF st' ∧ uncrossed st'.
Proof.
  intros Hwf Hunc. destruct op as [order|id|id newPrice newQuantity now|]; simpl.
  - destruct (addOrder_cases order st) as [Hrej|(p & -> & Hq & Hid)].
    + rewrite addOrder_rejects by done. eauto.
    + destruct (addOrder_accepts p st Hwf Hq Hid) as (st' & tr & -> & Hres).
      exists st', tr. split; [done|]. split; [apply Hres|].
      apply Hres. by apply addOrder_uncrossed.
  - destruct (orders_ st !! id) as [p|] eqn:Hid.
    + destruct (cancelOrder_known id p st Hwf Hid) as [-> Hwf']. simpl.
      eexists _, _. split; [done|]. split; [done|].
      intros kb lb ka la. simpl. intros Hb Ha.
      eapply (uncrossed_remove p st); [apply Hwf | done..].
    + rewrite cancelOrder_unknown by done. simpl. eauto.
  - destruct (orders_ st !! id) as [p|] eqn:Hid.
    + destruct (modifyOrder_known id p newPrice newQuantity now st Hwf Hid)
        as (st' & tr & -> & Hres).
      exists st', tr. split; [done|]. split; [apply Hres|].
      apply Hres. apply modified_uncrossed; [apply Hwf | done].
    + rewrite modifyOrder_unknown by done. eauto.
  - exists (clear st), []. split; [done|]. split; [apply WF_empty | apply uncrossed_empty].
Qed.

Lemma run_invariant ops st :
  WF st → uncrossed st →
  ∃ st', run ops st = Returns st' ∧ WF st' ∧ uncrossed st'.
Proof.
  revert st. induction ops as [|op ops IH]; intros st Hwf Hunc; simpl; [eauto|].
  destruct (apply_op_invariant op st Hwf Hunc) as (st1 & tr & -> & Hwf1 & Hunc1).
  by apply IH.
Qed.

(** ** Insertion followed by removal *)











(** ** The priority queue *)









(** * The claims *)

(** Closed goals about the test scenarios: evaluate, then compare; prices
    that were computed are compared as rationals. *)
Ltac compare_prices :=
  lazymatch goal with
  | |- @eq Qc _ _ => apply Qc_is_canon; reflexivity
  | |- Some _ = Some _ => f_equal; compare_prices
  | |- _ :: _ = _ :: _ => f_equal; compare_prices
  | |- mkTrade _ _ _ _ = mkTrade _ _ _ _ => f_equal; compare_prices
  | |- _ => reflexivity
  end.

Ltac scenario :=
  vm_compute; repeat split;
  try reflexivity;
  try (let H := fresh in intros H; inversion H; fail);
  try compare_prices.








(** C4. On a well-formed book [addOrder] returns [false] and leaves the
    state as it is when the order is null, has quantity zero or carries an
    identifier that is already indexed; for every other input it returns
    [true], whatever matching does with the order. *)
Theorem addOrder_rejects_exactly (order : option OrderPtr) (st : State) :
  WF st →
  (rejected order st → addOrder order st = Returns (false, st, [])) ∧
  (¬ rejected order st → ∃ st' trades, addOrder order st = Returns (true, st', trades)).
Proof.
  intros Hwf. split; [apply addOrder_rejects|]. intros Hacc.
  destruct (addOrder_cases order st) as [Hrej|(p & -> & Hq & Hid)]; [done|].
  destruct (addOrder_accepts p st Hwf Hq Hid) as (st' & tr & -> & _). eauto.
Qed.

Lemma addOrder_rejects_exactly_witness :
  (rejected (Some 2%positive) (empty_book partial_fill_orders) →
   addOrder (Some 2%positive) (empty_book partial_fill_orders) =
     Returns (false, empty_book partial_fill_orders, [])) ∧
  (¬ rejected (Some 2%positive) (empty_book partial_fill_orders) →
   ∃ st' trades,
     addOrder (Some 2%positive) (empty_book partial_fill_orders) = Returns (true, st', trades)).
Proof.
  apply (addOrder_rejects_exactly (Some 2%positive) (empty_book partial_fill_orders)).
  apply WF_empty.
Defined.




(** C2. One pass of the matching loop between the incoming order and the
    resting order at the front of the level trades min(O.quantity,
    R.quantity): the pass adds exactly one trade of that quantity to the
    trades of the call, and both quantities go down by exactly that much.
    In a well-formed book the two orders of a pass are always distinct and
    on opposite sides. Scenario: SELL 100 then BUY 150 at one price gives
    one trade of 100 and leaves the BUY resting with 50, which is also the
    depth at that price. *)
Theorem match_step_conserves_quantity :
  (∀ newOrder oppositeOrder rest st,
     newOrder ≠ oppositeOrder →
     side (mem st oppositeOrder) = opposite (side (mem st newOrder)) →
     ∃ st' l' t,
       matchFront newOrder oppositeOrder rest st = Returns (st', l', t) ∧
       trade_quantity t = N.min (quantity (mem st newOrder)) (quantity (mem st oppositeOrder)) ∧
       (trade_quantity t ≤ quantity (mem st newOrder))%N ∧
       (trade_quantity t ≤ quantity (mem st oppositeOrder))%N ∧
       quantity (mem st' newOrder) = (quantity (mem st newOrder) - trade_quantity t)%N ∧
       quantity (mem st' oppositeOrder) =
         (quantity (mem st oppositeOrder) - trade_quantity t)%N ∧
       ∀ fuel trades,
         quantity (mem st newOrder) ≠ 0%N →
         matchLevel (S fuel) newOrder st (oppositeOrder :: rest) trades =
           matchLevel fuel newOrder st' l' (trades ++ [t])) ∧
  (∀ st newOrder k l oppositeOrder,
     structured None st →
     plm_find k (getPriceLevelMap (opposite (side (mem st newOrder))) st) = Some l →
     oppositeOrder ∈ l →
     newOrder ≠ oppositeOrder ∧
     side (mem st oppositeOrder) = opposite (side (mem st newOrder))) ∧
  let before := state_after [Add (Some 1%positive)] partial_fill_orders in
  match addOrder (Some 2%positive) before with
  | Returns (accepted, st', trades) =>
      accepted = true ∧
      trades = [mkTrade 2 1 (px 10050) 100] ∧
      map_to_list (orders_ st') = [(2%N, 2%positive)] ∧
      bids_ st' = [(px 10050, [2%positive])] ∧ asks_ st' = [] ∧
      quantity (mem st' 2%positive) = 50%N ∧
      getDepthAtPrice (px 10050) BUY st' = 50%N
  | _ => False
  end.
Proof.
  split; [|split].
  - intros newOrder oppositeOrder rest st Hne Hside.
    pose proof (matchFront_Returns newOrder oppositeOrder rest st Hne Hside) as Hstep.
    simpl in Hstep.
    set (q := N.min (quantity (mem st newOrder)) (quantity (mem st oppositeOrder))) in *.
    assert (trade_quantity (trade_between (mem st) newOrder oppositeOrder q) = q) as Hq.
    { unfold trade_between. by destruct (side (mem st newOrder)). }
    destruct (decide (quantity (mem st oppositeOrder) ≤ quantity (mem st newOrder))%N);
      eexists _, _, _; (split; [exact Hstep|]); rewrite Hq; simpl;
      rewrite filled_new, filled_opposite by done; simpl;
      (repeat split; try (unfold q; lia));
      intros fuel trades Hnz; rewrite decide_False by done; by rewrite Hstep.
  - intros st newOrder k l oppositeOrder Hst Hf Hin.
    destruct (s_level _ _ Hst _ _ _ Hf) as [Hlv _].
    destruct (level_ok_place _ _ _ _ _ Hlv Hin) as [Hs _]. split; [|done].
    intros ->. by eapply opposite_ne.
  - scenario.
Qed.

Lemma match_step_conserves_quantity_witness :
  ∃ st' l' t,
    matchFront 2%positive 1%positive []
      (state_after [Add (Some 1%positive)] partial_fill_orders) = Returns (st', l', t) ∧
    trade_quantity t = 100%N ∧
    quantity (mem st' 2%positive) = 50%N ∧ quantity (mem st' 1%positive) = 0%N.
Proof.
  destruct (proj1 match_step_conserves_quantity 2%positive 1%positive []
              (state_after [Add (Some 1%positive)] partial_fill_orders))
    as (st' & l' & t & Hstep & Hq & _ & _ & Hn & Ho & _).
  - intros H. inversion H.
  - reflexivity.
  - exists st', l', t. split; [exact Hstep|]. rewrite Hn, Ho, Hq. repeat split.
Defined.



Lemma apply_op_prices op st st' trades :
  WF st → (∀ p, 0 < price (mem st p)) → modifies_to_positive op →
  apply_op op st = Returns (st', trades) →
  ∀ p, 0 < price (mem st' p).
Proof.
  intros Hwf Hpr Hop.
  destruct op as [order|id|id newPrice newQuantity now|]; simpl.
  - destruct (addOrder_cases order st) as [Hrej|(p & -> & Hq & Hid)].
    + rewrite addOrder_rejects by done. by intros [= <- _].
    + destruct (addOrder_accepts p st Hwf Hq Hid) as (st1 & tr & -> & Hres).
      intros [= <- _] q. destruct (mo_static _ _ _ _ Hres q) as (_ & _ & -> & _).
      rewrite addOrderToPriceLevel_mem. apply Hpr.
  - intros [= <- _] q. unfold cancelOrder. destruct (orders_ st !! id); simpl; [|done].
    rewrite removeOrderFromPriceLevel_mem. apply Hpr.
  - destruct (orders_ st !! id) as [p|] eqn:Hid.
    + destruct (modifyOrder_known id p newPrice newQuantity now st Hwf Hid)
        as (st1 & tr & -> & Hres).
      intros [= <- _] q. destruct (mo_static _ _ _ _ Hres q) as (_ & _ & -> & _).
      rewrite modified_mem. unfold store. case_decide; [done | apply Hpr].
    + rewrite modifyOrder_unknown by done. by intros [= <- _].
  - intros [= <- _]. apply Hpr.
Qed.

(** C9, as the code has it. The book never looks at the sign of a price:
    when every order the caller makes and every price handed to
    [modifyOrder] is strictly positive, every resting order has a strictly
    positive price; nothing more is guaranteed. *)
Theorem resting_prices_positive_when_supplied_positive (m : Memory) (ops : list Op) :
  (∀ p, 0 < price (m p)) →
  Forall modifies_to_positive ops →
  ∃ st,
    run ops (empty_book m) = Returns st ∧
    ∀ id p, orders_ st !! id = Some p → 0 < price (mem st p).
Proof.
  intros Hm Hops.
  assert (∀ st, WF st → uncrossed st → (∀ p, 0 < price (mem st p)) →
            ∃ st', run ops st = Returns st' ∧ ∀ p, 0 < price (mem st' p)) as Hrun.
  { induction Hops as [|op ops Hop Hops IH]; intros st Hwf Hunc Hpr; simpl; [eauto|].
    destruct (apply_op_invariant op st Hwf Hunc) as (st1 & tr & Hstep & Hwf1 & Hunc1).
    rewrite Hstep. apply IH; [done..|].
    exact (apply_op_prices op st st1 tr Hwf Hpr Hop Hstep). }
  destruct (Hrun (empty_book m) (WF_empty m) (uncrossed_empty m) Hm) as (st & Hst & Hpr).
  exists st. split; [done|]. intros id p _. apply Hpr.
Qed.

Lemma resting_prices_positive_when_supplied_positive_witness :
  ∃ st,
    run [Add (Some 1%positive); Add (Some 3%positive); Modify 1 (px 9900) 5 7]
        (empty_book positive_orders) = Returns st ∧
    ∀ id p, orders_ st !! id = Some p → 0 < price (mem st p).
Proof.
  apply (resting_prices_positive_when_supplied_positive positive_orders
           [Add (Some 1%positive); Add (Some 3%positive); Modify 1 (px 9900) 5 7]).
  - intros p. destruct p; vm_compute; reflexivity.
  - repeat constructor.
Defined.

(** C9, as stated, fails: a BUY at the price -1.50 is accepted and rests in
    the index and in a bid level, and a resting BUY can be modified to the
    price 0. *)
Lemma nonpositive_price_rests :
  match addOrder (Some 1%positive) (empty_book nonpositive_orders) with
  | Returns (accepted, st', trades) =>
      accepted = true ∧
      orders_ st' !! 1%N = Some 1%positive ∧
      bids_ st' = [(px (-150), [1%positive])] ∧
      price (mem st' 1%positive) = px (-150) ∧
      price (mem st' 1%positive) ≤ 0
  | _ => False
  end ∧
  match modifyOrder 1 0 10 2 (state_after [Add (Some 1%positive)] positive_orders) with
  | Returns (accepted, st', trades) =>
      accepted = true ∧
      orders_ st' !! 1%N = Some 1%positive ∧
      bids_ st' = [(0, [1%positive])] ∧
      price (mem st' 1%positive) = 0
  | _ => False
  end.
Proof. vm_compute. repeat split. intros H. inversion H. Qed.





(** * Further properties of the code *)

(** ** The comparison operators of [Order] *)

Lemma Qc_lt_irrefl (x : Qc) : ¬ x < x.
Proof. intros H. by apply Qclt_not_eq in H. Qed.

Lemma operator_lt_true a b :
  operator_lt a b = true ↔
  better (opposite (side a)) (price a) (price b) ∨
  (price a = price b ∧ (timestamp a < timestamp b)%N).
Proof.
  unfold operator_lt.
  destruct (side a); simpl; case_bool_decide as Hp;
    rewrite ?bool_decide_eq_true, ?N.ltb_lt.
  - split; [by left | intros [?|[? _]]; [done | by destruct Hp]].
  - split; [by right | intros [Hlt|[_ ?]]; [|done]].
    rewrite Hp in Hlt. by apply Qc_lt_irrefl in Hlt.
  - split; [by left | intros [?|[? _]]; [done | by destruct Hp]].
  - split; [by right | intros [Hlt|[_ ?]]; [|done]].
    rewrite Hp in Hlt. by apply Qc_lt_irrefl in Hlt.
Qed.

Lemma operator_lt_false a b :
  operator_lt a b = false ↔
  better (opposite (side a)) (price b) (price a) ∨
  (price a = price b ∧ (timestamp b ≤ timestamp a)%N).
Proof.
  rewrite <-not_true_iff_false, operator_lt_true.
  assert (Htri : price a < price b ∨ price a = price b ∨ price b < price a).
  { destruct (Qc_dec (price a) (price b)) as [[?|?]|?]; auto. }
  assert (Hno : ∀ x y : Qc, x < y → y < x → False).
  { intros x y H1 H2. apply (Qc_lt_irrefl x). by apply Qclt_trans with y. }
  assert (Hne : ∀ x y : Qc, x = y → x < y → False).
  { intros x y -> H1. by apply Qc_lt_irrefl in H1. }
  destruct (side a); simpl; split.
  - intros Hn. destruct Htri as [?|[Heq|?]]; [by left| |by destruct Hn; left].
    right. split; [done|]. apply N.le_ngt. intros ?. by destruct Hn; right.
  - intros [H1|[H1 ?]] [H2|[H2 ?]];
      [exact (Hno _ _ H1 H2) | exact (Hne _ _ H2 H1) | exact (Hne _ _ (eq_sym H1) H2) | lia].
  - intros Hn. destruct Htri as [?|[Heq|?]]; [by destruct Hn; left| |by left].
    right. split; [done|]. apply N.le_ngt. intros ?. by destruct Hn; right.
  - intros [H1|[H1 ?]] [H2|[H2 ?]];
      [exact (Hno _ _ H1 H2) | exact (Hne _ _ (eq_sym H2) H1) | exact (Hne _ _ H1 H2) | lia].
Qed.

(** X1. Among orders of one side [operator<] is a strict weak order: no
    order is before itself, two orders are never each before the other, the
    relation is transitive, and two orders neither of which is before the
    other have the same price and the same timestamp. *)
Theorem operator_lt_one_side (a b c : Order) :
  side a = side b → side b = side c →
  operator_lt a a = false ∧
  (operator_lt a b = true → operator_lt b a = false) ∧
  (operator_lt a b = true → operator_lt b c = true → operator_lt a c = true) ∧
  (operator_lt a b = false → operator_lt b a = false →
   price a = price b ∧ timestamp a = timestamp b) ∧
  operator_gt a b = operator_lt b a.
Proof.
  intros Hab Hbc.
  assert (Hno : ∀ x y : Qc, x < y → y < x → False).
  { intros x y H1 H2. apply (Qc_lt_irrefl x). by apply Qclt_trans with y. }
  assert (Hbt : ∀ x y z, better (opposite (side a)) x y → better (opposite (side a)) y z →
                         better (opposite (side a)) x z).
  { intros x y z. destruct (side a); simpl; intros H1 H2; by eapply Qclt_trans. }
  assert (Hbi : ∀ x y, better (opposite (side a)) x y → better (opposite (side a)) y x → False).
  { intros x y. destruct (side a); simpl; eauto. }
  split; [|split; [|split; [|split]]].
  - apply operator_lt_false. right. split; [done | lia].
  - rewrite operator_lt_true, operator_lt_false, <-Hab.
    intros [?|[-> ?]]; [by left | right; split; [done | lia]].
  - rewrite !operator_lt_true, <-Hab.
    intros [H1|[H1 ?]] [H2|[H2 ?]].
    + left. by eapply Hbt.
    + left. by rewrite <-H2.
    + left. by rewrite H1.
    + right. split; [congruence | lia].
  - rewrite !operator_lt_false, <-Hab.
    intros [H1|[H1 ?]] [H2|[H2 ?]].
    + by destruct (Hbi _ _ H1 H2).
    + rewrite H2 in H1. by destruct (Hbi _ _ H1 H1).
    + rewrite H1 in H2. by destruct (Hbi _ _ H2 H2).
    + split; [done | lia].
  - done.
Qed.

Lemma operator_lt_one_side_witness :
  let a := mkOrder 1 SELL (px 10100) 150 3 in
  let b := mkOrder 2 SELL (px 10125) 100 4 in
  let c := mkOrder 3 SELL (px 10125) 100 5 in
  operator_lt a a = false ∧
  (operator_lt a b = true → operator_lt b a = false) ∧
  (operator_lt a b = true → operator_lt b c = true → operator_lt a c = true) ∧
  (operator_lt a b = false → operator_lt b a = false →
   price a = price b ∧ timestamp a = timestamp b) ∧
  operator_gt a b = operator_lt b a.
Proof. intros a b c. apply (operator_lt_one_side a b c); reflexivity. Defined.

(** X2. [operator<] reads the side of its left operand only: a BUY and a
    SELL with the BUY priced above the SELL are each before the other, under
    [operator<] and under [operator>] alike. *)
Theorem operator_lt_across_sides (a b : Order) :
  side a = BUY → side b = SELL → price b < price a →
  operator_lt a b = true ∧ operator_lt b a = true ∧
  operator_gt a b = true ∧ operator_gt b a = true.
Proof.
  intros Ha Hb Hlt. unfold operator_gt.
  assert (operator_lt a b = true) by (apply operator_lt_true; rewrite Ha; by left).
  assert (operator_lt b a = true) by (apply operator_lt_true; rewrite Hb; by left).
  done.
Qed.

Lemma operator_lt_across_sides_witness :
  let a := mkOrder 1 BUY (px 10050) 100 1 in
  let b := mkOrder 5 SELL (px 10030) 75 5 in
  operator_lt a b = true ∧ operator_lt b a = true ∧
  operator_gt a b = true ∧ operator_gt b a = true.
Proof.
  intros a b. apply (operator_lt_across_sides a b); [reflexivity | reflexivity |].
  vm_compute. reflexivity.
Defined.

(** X3. Two orders of the index that [operator==] takes for equal are one
    and the same object, and [operator!=] tells apart any two objects of the
    index: identifiers are unique in a well-formed book. *)
Theorem operator_eq_in_book (st : State) (id1 id2 : N) (p1 p2 : OrderPtr) :
  WF st → orders_ st !! id1 = Some p1 → orders_ st !! id2 = Some p2 →
  (operator_eq (mem st p1) (mem st p2) = true ↔ p1 = p2) ∧
  (operator_ne (mem st p1) (mem st p2) = true ↔ p1 ≠ p2).
Proof.
  intros [Hst _] H1 H2.
  destruct (s_index _ _ Hst _ _ H1) as [Hi1 _].
  destruct (s_index _ _ Hst _ _ H2) as [Hi2 _].
  assert (Heq : operator_eq (mem st p1) (mem st p2) = true ↔ p1 = p2).
  { unfold operator_eq. rewrite N.eqb_eq, Hi1, Hi2. split; [|by intros ->; simplify_eq].
    intros ->. by simplify_eq. }
  split; [done|]. unfold operator_ne. rewrite negb_true_iff, <-not_true_iff_false.
  by rewrite Heq.
Qed.

Lemma operator_eq_in_book_witness :
  let st := state_after [Add (Some 1%positive); Add (Some 2%positive)] crossing_orders in
  (operator_eq (mem st 1%positive) (mem st 2%positive) = true ↔ 1%positive = 2%positive) ∧
  (operator_ne (mem st 1%positive) (mem st 2%positive) = true ↔ 1%positive ≠ 2%positive).
Proof.
  intros st. apply (operator_eq_in_book st 1 2 1%positive 2%positive); [|reflexivity..].
  destruct (run_invariant [Add (Some 1%positive); Add (Some 2%positive)]
              (empty_book crossing_orders) (WF_empty _) (uncrossed_empty _))
    as (st' & Hst' & Hwf & _).
  unfold st, state_after. by rewrite Hst'.
Defined.
